(** * Face-recognition login: enrollment, training and per-frame decision

    A shallow embedding of the three scripts of the repository:
    - [dataset.py]  ([Module Dataset]): [create_dataset], the enrollment loop;
    - [recog.py]    ([Module Recog]):   [train_model], label assignment and the
      two persisted artifacts;
    - [login.py]    ([Module Login]):   [FaceLoginApp.update_frame], the
      per-face decision and the frame status.

    The OpenCV calls are the external collaborators.  What they return is
    an input of the model: the detector is a function from a grayscale
    image to regions, the recognizer's [predict] a function from a crop to
    a label and a score, the recognizer's [train] a partial function, the
    camera a finite feed of read results, the .jpg encoder a function from
    a crop to bytes.  The file system that [dataset.py] writes to is a
    tree of resolved POSIX paths; the two files that [recog.py] writes are
    a pair of contents, each absent, torn or complete. *)

From Stdlib Require Import ZArith Floats Uint63.
From stdpp Require Import gmap strings list fin_maps pretty.

Open Scope Z_scope.
#[local] Set Warnings "-clear-no-such-hyp".

(** ** Images and numpy slicing *)

(** A grayscale image: rows of pixel values. *)
Definition image : Type := list (list Z).

(** A detected region [(x, y, w, h)] as [detectMultiScale] returns it. *)
Definition region : Type := Z * Z * Z * Z.

(** Python's normalisation of one bound of a slice over a sequence of
    length [len]: a negative bound counts from the end, and both ends are
    clipped to the sequence. *)
Definition slice_bound (len i : Z) : Z :=
  if i <? 0 then Z.max 0 (i + len) else Z.min i len.

(** [l[a:b]]. *)
Definition py_slice {A} (l : list A) (a b : Z) : list A :=
  let len := Z.of_nat (length l) in
  let a' := slice_bound len a in
  let b' := slice_bound len b in
  take (Z.to_nat (b' - a')) (drop (Z.to_nat a') l).

(** [gray[y:y+h, x:x+w]]. *)
Definition crop (gray : image) (r : region) : image :=
  let '(x, y, w, h) := r in
  (fun row => py_slice row x (x + w)) <$> py_slice gray y (y + h).

(** [arr.size]: the number of pixels. *)
Definition size_of (img : image) : Z :=
  Z.of_nat (sum_list (length <$> img)).

(** ** login.py *)
Module Login.

Definition CONF_THRESHOLD : Z := 65.

(** [confidence < CONF_THRESHOLD]: a Python float against a Python int.
    The threshold is a small integer, which binary64 holds exactly, so
    the test is the binary64 comparison (false on a NaN). *)
Definition score_below (confidence : float) (threshold : Z) : bool :=
  PrimFloat.ltb confidence (PrimFloat.of_uint63 (Uint63.of_Z threshold)).

(** The fields of [FaceLoginApp] that [update_frame] reads.
    [cap_working] is [self.cap is not None and self.cap.isOpened()]. *)
Record FaceLoginApp := {
  cap_working   : bool;
  face_detector : image -> list region;          (* detectMultiScale(gray, 1.3, 5) *)
  recognizer    : image -> Z * float;            (* predict(face_roi) *)
  id_to_name    : gmap Z string
}.

(** [load_models]: the reverse mapping [{v: k for k, v in name_mapping.items()}].
    The order of the items only matters when two names share a label. *)
Definition reverse_mapping (name_mapping : gmap string Z) : gmap Z string :=
  map_fold (fun k v acc => <[v := k]> acc) ∅ name_mapping.

(** The three locals of [update_frame] that the loop over the faces updates. *)
Record frame_locals := {
  logged_in_name : option string;
  status_color   : string;
  status_text    : string
}.

Definition initial_locals : frame_locals :=
  {| logged_in_name := None;
     status_color := "black";
     status_text := "Scanning for face..." |}.

(** What is drawn for one face: the rectangle, the text and its BGR colour. *)
Record overlay := {
  ov_rect  : region;
  ov_text  : string;
  ov_color : Z * Z * Z
}.

Definition GREEN : Z * Z * Z := (0, 255, 0).
Definition RED : Z * Z * Z := (0, 0, 255).

(** The body of [for (x, y, w, h) in faces]. *)
Definition process_face (app : FaceLoginApp) (gray : image)
    (st : frame_locals) (r : region) : frame_locals * overlay :=
  let face_roi := crop gray r in
  let '(id_num, confidence) := recognizer app face_roi in
  if score_below confidence CONF_THRESHOLD then
    let name := default "Unknown" (id_to_name app !! id_num) in
    ({| logged_in_name := Some name;
        status_color := "green";
        status_text := "Welcome, " +:+ name +:+ "!" |},
     {| ov_rect := r; ov_text := "Logged In: " +:+ name; ov_color := GREEN |})
  else
    (match logged_in_name st with
     | None => {| logged_in_name := None;
                  status_color := "red";
                  status_text := "Login Failed" |}
     | Some _ => st
     end,
     {| ov_rect := r; ov_text := "Login Failed"; ov_color := RED |}).

(** The loop over the faces, in the order the detector returned them. *)
Fixpoint process_faces (app : FaceLoginApp) (gray : image)
    (st : frame_locals) (drawn : list overlay) (faces : list region)
    : frame_locals * list overlay :=
  match faces with
  | [] => (st, drawn)
  | r :: rest =>
      let '(st', o) := process_face app gray st r in
      process_faces app gray st' (drawn ++ [o]) rest
  end.

(** The widgets [update_frame] writes, and whether it rescheduled itself. *)
Record gui := {
  status_var   : string;           (* self.status_var *)
  status_fg    : string;           (* self.status_label fg *)
  video        : list overlay;     (* what was drawn on the shown frame *)
  rescheduled  : bool              (* self.root.after(10, self.update_frame) *)
}.

(** [update_frame].  [read] is the result of [self.cap.read()]: [None]
    when [ret] is false, otherwise the frame after the mirror flip and
    the conversion to grayscale. *)
Definition update_frame (app : FaceLoginApp) (g : gui) (read : option image) : gui :=
  if negb (cap_working app) then
    {| status_var := status_var g; status_fg := status_fg g;
       video := video g; rescheduled := false |}
  else
    match read with
    | None =>
        {| status_var := status_var g; status_fg := status_fg g;
           video := video g; rescheduled := true |}
    | Some gray =>
        let faces := face_detector app gray in
        let '(st, drawn) := process_faces app gray initial_locals [] faces in
        {| status_var := status_text st; status_fg := status_color st;
           video := drawn; rescheduled := true |}
    end.

(** The verdict of one region, read off what the loop body does to fresh
    locals: it records a name exactly when it accepts. *)
Inductive decision := Accept (identity : string) | Reject.

Definition verdict (app : FaceLoginApp) (gray : image) (r : region) : decision :=
  match logged_in_name (process_face app gray initial_locals r).1 with
  | Some name => Accept name
  | None => Reject
  end.

Definition verdicts (app : FaceLoginApp) (gray : image) : list decision :=
  verdict app gray <$> face_detector app gray.

(** The locals after an acceptance, and after a rejection with nobody
    logged in. *)
Definition welcome (name : string) : frame_locals :=
  {| logged_in_name := Some name;
     status_color := "green";
     status_text := "Welcome, " +:+ name +:+ "!" |}.

Definition failed : frame_locals :=
  {| logged_in_name := None; status_color := "red"; status_text := "Login Failed" |}.

(** The effect of one verdict on the locals. *)
Definition absorb (st : frame_locals) (v : decision) : frame_locals :=
  match v with
  | Accept name => welcome name
  | Reject => match logged_in_name st with None => failed | Some _ => st end
  end.

(** [root.mainloop()] driving [update_frame]: a call that rescheduled
    itself is called again after the delay, on the next read of the
    camera; a call that did not ends the loop. *)
Fixpoint mainloop (app : FaceLoginApp) (g : gui) (reads : list (option image)) : gui :=
  match reads with
  | [] => g
  | read :: rest =>
      let g' := update_frame app g read in
      if rescheduled g' then mainloop app g' rest else g'
  end.

(** [open_camera]: [opened] is [self.cap.isOpened()] for the chosen index. *)
Definition open_camera (app : FaceLoginApp) (cam_index : Z) (opened : bool)
    (g : gui) : FaceLoginApp * gui :=
  let app' := {| cap_working := opened;
                 face_detector := face_detector app;
                 recognizer := recognizer app;
                 id_to_name := id_to_name app |} in
  if opened then (app', g)
  else (app',
        {| status_var := "Error: Could not open camera " +:+ pretty cam_index;
           status_fg := "red";
           video := video g;
           rescheduled := rescheduled g |}).

(** What [process_face] draws for a region with a given verdict. *)
Definition overlay_for (r : region) (v : decision) : overlay :=
  match v with
  | Accept name =>
      {| ov_rect := r; ov_text := "Logged In: " +:+ name; ov_color := GREEN |}
  | Reject => {| ov_rect := r; ov_text := "Login Failed"; ov_color := RED |}
  end.

End Login.

(** ** recog.py *)
Module Recog.

Definition DATASET_PATH : string := "dataset".
Definition MODEL_PATH : string := "model.yml".
Definition MAPPING_PATH : string := "name_mapping.json".

(** One entry of [os.listdir(DATASET_PATH)]: either [os.path.isdir] is
    false for it, or it is a directory; a directory is given by its own
    listing, each file with what [cv2.imread] returns for it ([None]
    when the file cannot be read as an image). *)
Inductive dir_entry :=
  | NotDir
  | UserDir (files : list (string * option image)).

(** What is at [DATASET_PATH]. [os.path.exists] holds of the last two;
    [os.listdir] raises on [NotADirectory]. *)
Inductive dataset :=
  | Missing
  | NotADirectory
  | Listing (entries : list (string * dir_entry)).

(** [s.endswith(suffix)]. *)
Definition endswith (s suffix : string) : bool :=
  let n := String.length s in
  let k := String.length suffix in
  (k <=? n)%nat && String.eqb (String.substring (n - k) k s) suffix.

(** [img_name.endswith(('.jpg', '.png', '.jpeg'))]. *)
Definition is_image_name (img_name : string) : bool :=
  endswith img_name ".jpg" || endswith img_name ".png" || endswith img_name ".jpeg".

(** The four locals of [train_model] that the walk updates. *)
Record walk := {
  faces      : list image;
  ids        : list Z;
  name_to_id : gmap string Z;
  current_id : Z
}.

Definition walk_start : walk :=
  {| faces := []; ids := []; name_to_id := ∅; current_id := 0 |}.

(** The body of [for img_name in os.listdir(user_path)]. *)
Definition load_image (user_id : Z) (w : walk) (f : string * option image) : walk :=
  let '(img_name, read) := f in
  if negb (is_image_name img_name) then w
  else match read with
       | None => w                                  (* warning, continue *)
       | Some face_img =>
           {| faces := faces w ++ [face_img];
              ids := ids w ++ [user_id];
              name_to_id := name_to_id w;
              current_id := current_id w |}
       end.

(** The body of [for dir_name in os.listdir(DATASET_PATH)]. *)
Definition visit (w : walk) (e : string * dir_entry) : walk :=
  let '(dir_name, d) := e in
  match d with
  | NotDir => w                                     (* continue *)
  | UserDir files =>
      let '(user_id, w1) :=
        match name_to_id w !! dir_name with
        | None =>
            (current_id w,
             {| faces := faces w; ids := ids w;
                name_to_id := <[dir_name := current_id w]> (name_to_id w);
                current_id := current_id w + 1 |})
        | Some known => (known, w)
        end in
      foldl (load_image user_id) w1 files
  end.

Definition enumerate (entries : list (string * dir_entry)) : walk :=
  foldl visit walk_start entries.

(** What a path holds: nothing, a complete document, or what is left of a
    write that raised after the file had been opened for writing (the
    file is truncated, at most partly written). *)
Inductive file (A : Type) :=
  | Absent
  | Torn
  | Holds (content : A).
Arguments Absent {A}.
Arguments Torn {A}.
Arguments Holds {A} content.

(** How a write can go: it completes; it raises before the file is
    touched (the open fails); or it raises after the file was opened for
    writing (the dump or the close fails). *)
Inductive write :=
  | Completes
  | RaisesBefore
  | RaisesAfter.

Section train.
(** The trained model is opaque: whatever the recognizer produces. *)
Context {model : Type}.

(** The two persisted artifacts. *)
Record artifacts := {
  model_file   : file model;
  mapping_file : file (gmap string Z)
}.

(** What the run cannot decide itself: [recognizer.train] ([None] when
    it raises), how [recognizer.write(MODEL_PATH)] goes, and how
    [with open(MAPPING_PATH, 'w') as f: json.dump(name_to_id, f)] goes. *)
Record environment := {
  lbph_train    : list image -> list Z -> option model;
  model_write   : write;
  mapping_write : write
}.

Inductive outcome :=
  | NoDataset        (* "Error: Dataset directory ... not found." *)
  | Crashed          (* os.listdir raised: nothing catches it *)
  | NoFaces          (* "No faces found to train. Exiting." *)
  | TrainRaised      (* recognizer.train raised, caught *)
  | WriteRaised      (* a write raised, caught *)
  | Trained.         (* "Training complete." *)

(** The finished run: how it ended, the paths it wrote completely and the
    paths it left torn, each in order, and the artifacts after it. *)
Record run := {
  ended   : outcome;
  written : list string;
  torn    : list string;
  after   : artifacts
}.

Definition untouched (how : outcome) (fs : artifacts) : run :=
  {| ended := how; written := []; torn := []; after := fs |}.

Definition train_model (env : environment) (d : dataset) (fs : artifacts) : run :=
  match d with
  | Missing => untouched NoDataset fs
  | NotADirectory => untouched Crashed fs
  | Listing entries =>
      let w := enumerate entries in
      match faces w with
      | [] => untouched NoFaces fs
      | _ :: _ =>
          match lbph_train env (faces w) (ids w) with
          | None => untouched TrainRaised fs
          | Some m =>
              match model_write env with
              | RaisesBefore => untouched WriteRaised fs
              | RaisesAfter =>
                  {| ended := WriteRaised; written := []; torn := [MODEL_PATH];
                     after := {| model_file := Torn;
                                 mapping_file := mapping_file fs |} |}
              | Completes =>
                  match mapping_write env with
                  | RaisesBefore =>
                      {| ended := WriteRaised; written := [MODEL_PATH]; torn := [];
                         after := {| model_file := Holds m;
                                     mapping_file := mapping_file fs |} |}
                  | RaisesAfter =>
                      {| ended := WriteRaised; written := [MODEL_PATH];
                         torn := [MAPPING_PATH];
                         after := {| model_file := Holds m;
                                     mapping_file := Torn |} |}
                  | Completes =>
                      {| ended := Trained;
                         written := [MODEL_PATH; MAPPING_PATH]; torn := [];
                         after := {| model_file := Holds m;
                                     mapping_file := Holds (name_to_id w) |} |}
                  end
              end
          end
      end
  end.
End train.

Arguments artifacts : clear implicits.
Arguments environment : clear implicits.
Arguments run : clear implicits.

(** *** Notions the statements about [train_model] use *)

(** The identity partitions of a listing, in enumeration order. *)
Definition partitions (entries : list (string * dir_entry)) : list string :=
  omap (fun e => match e.2 with UserDir _ => Some e.1 | NotDir => None end) entries.

(** The names of a list in the order in which each is first met. *)
Fixpoint discovery_order (names : list string) : list string :=
  match names with
  | [] => []
  | x :: rest => x :: filter (fun y => y <> x) (discovery_order rest)
  end.

(** The label bookkeeping of [visit] alone: the mapping and the counter. *)
Definition assign (mc : gmap string Z * Z) (dir_name : string) : gmap string Z * Z :=
  match mc.1 !! dir_name with
  | None => (<[dir_name := mc.2]> mc.1, mc.2 + 1)
  | Some _ => mc
  end.

(** What the bookkeeping holds after a list of partition names: the
    counter is the number of distinct names, and a name has label [k]
    exactly when it is the [k]-th name first met. *)
Definition labelled (names : list string) (mc : gmap string Z * Z) : Prop :=
  mc.2 = Z.of_nat (length (discovery_order names)) /\
  forall name k, mc.1 !! name = Some k <->
    exists i : nat, k = Z.of_nat i /\ discovery_order names !! i = Some name.

(** Samples are only ever labelled with a registered label. *)
Definition ids_registered (w : walk) : Prop :=
  forall label, label ∈ ids w -> exists name, name_to_id w !! name = Some label.

(** A run wrote both artifacts, or none. *)
Definition both_written {model} (r : run model) : Prop :=
  MODEL_PATH ∈ written r /\ MAPPING_PATH ∈ written r.

Definition none_written {model} (fs : artifacts model) (r : run model) : Prop :=
  written r = [] /\ torn r = [] /\ after r = fs.

(** The images of a partition that the walk loads: the files with an
    image extension that [cv2.imread] could read, in listing order. *)
Definition valid_images (files : list (string * option image)) : list image :=
  omap (fun f => if is_image_name f.1 then f.2 else None) files.

(** The partitions of a listing with their files, in enumeration order. *)
Definition user_dirs (entries : list (string * dir_entry))
    : list (string * list (string * option image)) :=
  omap (fun e => match e.2 with
                 | UserDir files => Some (e.1, files)
                 | NotDir => None
                 end) entries.

End Recog.

(** ** dataset.py *)
Module Dataset.

Definition DATASET_PATH : string := "dataset".
Definition IMAGES_TO_CAPTURE : nat := 50.

(** *** The file system

    Paths are POSIX paths, resolved component by component and compared
    character by character (no case folding); there are no symbolic
    links, and nothing but the script changes the file system while it
    runs. *)

(** A resolved path: its components from the root. *)
Abbreviation path := (list string).

Inductive node :=
  | Folder
  | File (bytes : list Z).

(** The file system as the process sees it: the working directory, what
    each path below the root holds, and the paths at which the system lets
    the process neither create nor write (no permission, a full disk, a
    name it does not take). *)
Record sample_store := {
  cwd    : path;
  tree   : gmap path node;
  denied : path -> bool
}.

(** Nothing but the root, which is the working directory; nothing
    refused. *)
#[global] Instance sample_store_empty : Empty sample_store :=
  {| cwd := []; tree := ∅; denied := fun _ => false |}.

(** The store with [n] at [p]. *)
Definition put (p : path) (n : node) (store : sample_store) : sample_store :=
  {| cwd := cwd store; tree := <[p := n]> (tree store); denied := denied store |}.

(** [os.path.isdir] and [os.path.exists] of a resolved path; the root is
    a directory. *)
Definition is_dir (store : sample_store) (p : path) : bool :=
  bool_decide (p = []) ||
  match tree store !! p with Some Folder => true | _ => false end.

Definition exists_at (store : sample_store) (p : path) : bool :=
  bool_decide (p = []) || bool_decide (is_Some (tree store !! p)).

(** [os.mkdir] of a resolved path: [None] when it raises, which it does
    when something is there, when what the path lies in is no directory,
    and when the system refuses. *)
Definition mkdir (p : path) (store : sample_store) : option sample_store :=
  if negb (exists_at store p) && is_dir store (removelast p)
     && negb (denied store p)
  then Some (put p Folder store)
  else None.

(** The separator. *)
Definition slash : Ascii.ascii := Ascii.ascii_of_nat 47.

(** The text before the first "/" and the texts between the later ones. *)
Fixpoint split_path (s : string) : string * list string :=
  match s with
  | EmptyString => (EmptyString, [])
  | String c rest =>
      let '(first, others) := split_path rest in
      if Ascii.eqb c slash then (EmptyString, first :: others)
      else (String c first, others)
  end.

Definition components (s : string) : list string :=
  (split_path s).1 :: (split_path s).2.

Definition is_absolute (s : string) : bool :=
  match s with
  | String c _ => Ascii.eqb c slash
  | EmptyString => false
  end.

Fixpoint ends_with_slash (s : string) : bool :=
  match s with
  | EmptyString => false
  | String c EmptyString => Ascii.eqb c slash
  | String _ rest => ends_with_slash rest
  end.

(** [os.path.join(a, b)]. *)
Definition join (a b : string) : string :=
  if is_absolute b then b
  else if bool_decide (a = "") || ends_with_slash a then a +:+ b
  else a +:+ "/" +:+ b.

(** One component further: "" and "." stay, ".." goes up. *)
Definition step (at_ : path) (c : string) : path :=
  if bool_decide (c = "" \/ c = ".") then at_
  else if bool_decide (c = "..") then removelast at_
  else at_ ++ [c].

(** Where a path text starts, and where it leads. *)
Definition start (store : sample_store) (s : string) : path :=
  if is_absolute s then [] else cwd store.

Definition resolve (store : sample_store) (s : string) : path :=
  foldl step (start store s) (components s).

(** [os.makedirs(s, exist_ok=True)], component by component from a
    directory [at_]: a directory that exists is entered, a missing one is
    made, and the exception of an [os.mkdir] that raises is passed on.
    The result says whether [os.makedirs] returned, and holds the
    directories made until then. *)
Fixpoint make_along (store : sample_store) (at_ : path) (comps : list string)
    : sample_store * bool :=
  match comps with
  | [] => (store, true)
  | c :: rest =>
      let next := step at_ c in
      if is_dir store next then make_along store next rest
      else
        match mkdir next store with
        | Some store' => make_along store' next rest
        | None => (store, false)
        end
  end.

Definition makedirs (s : string) (store : sample_store) : sample_store * bool :=
  if is_dir store (start store s)
  then make_along store (start store s) (components s)
  else (store, false).

(** [cv2.imwrite(os.path.join(user_dataset_path, file), face_roi)], where
    [user_dataset_path] resolves to [dir], [file] holds no separator and
    [bytes] is the .jpg encoding of the crop.  It makes no directory.  It
    returns false, without raising and without writing, when [dir] is no
    directory, when the path is one, or when the system refuses; the
    script does not look at what it returns. *)
Definition imwrite (dir : path) (file : string) (bytes : list Z)
    (store : sample_store) : sample_store :=
  if is_dir store dir && negb (is_dir store (dir ++ [file]))
     && negb (denied store (dir ++ [file]))
  then put (dir ++ [file]) (File bytes) store
  else store.

(** *** The script *)

(** One [cap.read()] together with the key [cv2.waitKey(1)] returns once
    the frame is shown: [ReadFailed] when [ret] is false, otherwise the
    frame after the mirror flip and the conversion to grayscale. *)
Inductive read_result :=
  | ReadFailed
  | Frame (gray : image) (key : Z).

(** What [cv2.CascadeClassifier(CASCADE_PATH)] gives: it raises
    [cv2.error]; or it returns a classifier that is empty (the file is
    missing or holds no cascade), whose [detectMultiScale] raises; or it
    returns a loaded classifier, given by what it detects. *)
Inductive classifier :=
  | LoadRaises
  | NotLoaded
  | Loaded (detect : image -> list region).

(** What [create_dataset] asks of its surroundings: the two console
    inputs (the camera index already parsed by [get_camera_index]), the
    cascade, for each camera index the feed of the camera ([None] when it
    does not open; a feed that runs out reads as a failed read), whether
    OpenCV can show a window ([cv2.imshow] raises when it cannot), and the
    lossy .jpg encoder of [cv2.imwrite]. *)
Record environment := {
  user_name    : string;
  cascade_file : classifier;
  cam_index    : Z;
  cameras      : Z -> option (list read_result);
  display      : bool;
  jpeg         : image -> list Z
}.

(** The detector, when the cascade is loaded. *)
Definition cascade (env : environment) : option (image -> list region) :=
  match cascade_file env with
  | Loaded detect => Some detect
  | LoadRaises | NotLoaded => None
  end.

(** [face_detector.detectMultiScale(gray, 1.3, 5)]: [None] when it raises. *)
Definition detector (c : classifier) (gray : image) : option (list region) :=
  match c with
  | Loaded detect => Some (detect gray)
  | LoadRaises | NotLoaded => None
  end.

(** [f"image_{count}.jpg"]. *)
Definition image_name (count : nat) : string :=
  "image_" +:+ pretty count +:+ ".jpg".

(** The effects of a run that the claims speak of, in order. *)
Inductive event :=
  | Makedirs (user_dataset_path : string)
  | OpenCamera (index : Z)
  | Imwrite (dir : path) (file : string)
  | ReleaseCamera.

(** The body of [for (x, y, w, h) in faces]. *)
Definition save_face (encode : image -> list Z) (dir : path) (gray : image)
    (acc : nat * sample_store * list event) (r : region)
    : nat * sample_store * list event :=
  let '(count, store, trace) := acc in
  let face_roi := crop gray r in
  if 0 <? size_of face_roi then
    let count' := S count in
    (count', imwrite dir (image_name count') (encode face_roi) store,
     trace ++ [Imwrite dir (image_name count')])
  else acc.

Definition save_faces (encode : image -> list Z) (dir : path) (gray : image)
    (faces : list region) (acc : nat * sample_store * list event)
    : nat * sample_store * list event :=
  foldl (save_face encode dir gray) acc faces.

Inductive stop :=
  | Reached          (* the [while] condition failed *)
  | FrameLost        (* "Error: Failed to capture frame." *)
  | Interrupted.     (* "Capture interrupted by user." *)

(** How the loop is left: by one of its exits, or by an exception that
    nothing catches. *)
Inductive halt :=
  | Stopped (why : stop)
  | Raised.

(** [cv2.waitKey(1) & 0xFF == ord('q')]. *)
Definition is_quit (key : Z) : bool := Z.land key 255 =? 113.

(** [while count < IMAGES_TO_CAPTURE: ...]; [shows] says whether
    [cv2.imshow] works. *)
Fixpoint capture (detect : image -> option (list region))
    (encode : image -> list Z) (shows : bool) (dir : path)
    (feed : list read_result) (acc : nat * sample_store * list event)
    : halt * (nat * sample_store * list event) :=
  if (IMAGES_TO_CAPTURE <=? acc.1.1)%nat then (Stopped Reached, acc)
  else
    match feed with
    | [] | ReadFailed :: _ => (Stopped FrameLost, acc)
    | Frame gray key :: rest =>
        match detect gray with
        | None => (Raised, acc)
        | Some faces =>
            let acc' := save_faces encode dir gray faces acc in
            if negb shows then (Raised, acc')
            else if is_quit key then (Stopped Interrupted, acc')
            else capture detect encode shows dir rest acc'
        end
    end.

Inductive outcome :=
  | NameEmpty             (* "Name cannot be empty." *)
  | MakedirsRaised        (* os.makedirs raised: nothing catches it *)
  | CascadeError          (* "Error loading cascade file: ..." *)
  | CameraError           (* "Error: Could not open webcam ..." *)
  | Captured (why : stop) (count : nat)   (* "Captured {count} images successfully." *)
  | LoopRaised (count : nat).   (* detectMultiScale or imshow raised: nothing catches it *)

Record run := {
  ended : outcome;
  trace : list event;
  store_after : sample_store
}.

Definition create_dataset (env : environment) (store : sample_store) : run :=
  let name := user_name env in
  if bool_decide (name = "") then
    {| ended := NameEmpty; trace := []; store_after := store |}
  else
    let user_dataset_path := join DATASET_PATH name in
    let '(store1, made) := makedirs user_dataset_path store in
    let trace1 := [Makedirs user_dataset_path] in
    if negb made then
      {| ended := MakedirsRaised; trace := trace1; store_after := store1 |}
    else
      match cascade_file env with
      | LoadRaises =>
          {| ended := CascadeError; trace := trace1; store_after := store1 |}
      | face_detector =>
          let trace2 := trace1 ++ [OpenCamera (cam_index env)] in
          match cameras env (cam_index env) with
          | None => {| ended := CameraError; trace := trace2; store_after := store1 |}
          | Some feed =>
              let '(how, (count, store2, trace3)) :=
                capture (detector face_detector) (jpeg env) (display env)
                  (resolve store1 user_dataset_path) feed
                  (0%nat, store1, trace2) in
              match how with
              | Stopped why =>
                  {| ended := Captured why count;
                     trace := trace3 ++ [ReleaseCamera];
                     store_after := store2 |}
              | Raised =>
                  {| ended := LoopRaised count;
                     trace := trace3;
                     store_after := store2 |}
              end
          end
      end.

(** *** Notions the statements about [create_dataset] use *)

(** The directory of an identity: where [os.path.join(DATASET_PATH, name)]
    leads. *)
Definition user_dir (name : string) (store : sample_store) : path :=
  resolve store (join DATASET_PATH name).

(** The name of [p] inside [dir], when [p] is an entry of [dir]. *)
Definition child_of (dir p : path) : option string :=
  if bool_decide (take (length dir) p = dir) then
    match drop (length dir) p with
    | [x] => Some x
    | _ => None
    end
  else None.

(** The entries of a directory, by name. *)
Definition entries (dir : path) (store : sample_store) : gmap string node :=
  map_fold (fun p n acc =>
              match child_of dir p with
              | Some x => <[x := n]> acc
              | None => acc
              end) ∅ (tree store).

(** The entries of an identity's directory. *)
Definition partition (name : string) (store : sample_store) : gmap string node :=
  entries (user_dir name store) store.

(** The number of entries of an identity's directory: the number of its
    samples, when it holds nothing else. *)
Definition sample_count (name : string) (store : sample_store) : nat :=
  size (partition name store).

(** A name that is one component of a path: no separator in it, and not
    "", "." or "..". *)
Definition plain (name : string) : Prop :=
  components name = [name] /\ name <> "" /\ name <> "." /\ name <> "..".

(** The detector finds exactly one region in the frame, and its crop is
    not empty. *)
Definition one_face (detect : image -> list region) (f : read_result) : bool :=
  match f with
  | ReadFailed => false
  | Frame gray _ =>
      match detect gray with
      | [r] => 0 <? size_of (crop gray r)
      | _ => false
      end
  end.

(** The operator does not press 'q' while the frame is shown. *)
Definition no_quit (f : read_result) : bool :=
  match f with
  | ReadFailed => true
  | Frame _ key => negb (is_quit key)
  end.

(** The regions of a frame whose crop is not empty. *)
Definition clear_faces (gray : image) (faces : list region) : list region :=
  filter (fun r => 0 < size_of (crop gray r)) faces.

(** The calls of [cv2.imwrite] for the samples numbered
    [from + 1 .. upto], in order. *)
Definition writes (dir : path) (from upto : nat) : list event :=
  (fun k => Imwrite dir (image_name k)) <$> seq (S from) (upto - from).

(** What a stretch of the capture loop does to the count, the store and
    the trace: the count grows, [cv2.imwrite] is called for the samples in
    between, in order; directories stay what they are; a path changes only
    by becoming the file of one of these samples; and it does become one
    where [cv2.imwrite] can write. *)
Definition extends (dir : path)
    (acc acc' : nat * sample_store * list event) : Prop :=
  (acc.1.1 <= acc'.1.1)%nat /\
  acc'.2 = acc.2 ++ writes dir acc.1.1 acc'.1.1 /\
  (cwd acc'.1.2 = cwd acc.1.2 /\ denied acc'.1.2 = denied acc.1.2) /\
  (forall p, is_dir acc'.1.2 p = is_dir acc.1.2 p) /\
  (forall p : path,
     tree acc'.1.2 !! p = tree acc.1.2 !! p \/
     exists k bytes,
       (acc.1.1 < k <= acc'.1.1)%nat /\ p = dir ++ [image_name k] /\
       tree acc'.1.2 !! p = Some (File bytes)) /\
  (forall k, (acc.1.1 < k <= acc'.1.1)%nat ->
     is_dir acc.1.2 dir = true ->
     is_dir acc.1.2 (dir ++ [image_name k]) = false ->
     denied acc.1.2 (dir ++ [image_name k]) = false ->
     exists bytes, tree acc'.1.2 !! (dir ++ [image_name k]) = Some (File bytes)) /\
  (acc.1.1 = acc'.1.1 -> acc'.1.2 = acc.1.2).

(** The number of samples one read adds to the count. *)
Definition clear_in (detect : image -> list region) (f : read_result) : nat :=
  match f with
  | ReadFailed => 0
  | Frame gray _ => length (clear_faces gray (detect gray))
  end.

End Dataset.

(** ** Concrete frames, datasets and feeds used below *)
Module Fixtures.

(** A one-row frame of three pixels; the detector finds one face per pixel,
    left to right. *)
Definition gray3 : image := [[10; 20; 30]].
Definition three_faces : list region := [(0, 0, 1, 1); (1, 0, 1, 1); (2, 0, 1, 1)].

(** A recognizer that reads the single pixel of the crop: 10 is a poor
    match, 20 is label 0 at score 30, 30 is label 1 at score 40, and 40 is
    label 0 at exactly the threshold. *)
Definition pixel_predict (roi : image) : Z * float :=
  match roi with
  | [[p]] =>
      if p =? 20 then (0, 30%float)
      else if p =? 30 then (1, 40%float)
      else if p =? 40 then (0, 65%float)
      else (0, 90%float)
  | _ => (-1, infinity)
  end.

Definition alice_bob : gmap string Z := <["Bob" := 1]> (<["Alice" := 0]> ∅).

(** An engine loaded with that registry whose detector returns [faces]. *)
Definition app_of (faces : list region) : Login.FaceLoginApp :=
  {| Login.cap_working := true;
     Login.face_detector := fun _ => faces;
     Login.recognizer := pixel_predict;
     Login.id_to_name := Login.reverse_mapping alice_bob |}.

Definition app3 : Login.FaceLoginApp := app_of three_faces.

(** An engine whose registry is empty, with one face in every frame. *)
Definition stranger_app : Login.FaceLoginApp :=
  {| Login.cap_working := true;
     Login.face_detector := fun _ => [(0, 0, 1, 1)];
     Login.recognizer := pixel_predict;
     Login.id_to_name := ∅ |}.
Definition two_faces : list region := [(0, 0, 1, 1); (1, 0, 1, 1)].

Definition gui0 : Login.gui :=
  {| Login.status_var := "Scanning for face...";
     Login.status_fg := "black";
     Login.video := [];
     Login.rescheduled := false |}.

(** A dataset directory with a stray file and two partitions, the second
    without any image. *)
Definition two_users : list (string * Recog.dir_entry) :=
  [("alice", Recog.UserDir [("image_1.jpg", Some [[20]]);
                            ("notes.txt", None);
                            ("image_2.jpg", Some [[21]])]);
   ("README", Recog.NotDir);
   ("bob", Recog.UserDir [("broken.png", None)])].

(** The same partitions in the same order, with other files. *)
Definition two_users_later : list (string * Recog.dir_entry) :=
  [("alice", Recog.UserDir [("image_7.jpg", Some [[22]])]);
   ("bob", Recog.UserDir [("image_1.jpg", Some [[30]])])].

(** A recognizer whose model is the labelled collection it was given. *)
Definition keep_samples (faces : list image) (ids : list Z)
    : option (list (image * Z)) := Some (zip faces ids).

Definition env_fine : Recog.environment (list (image * Z)) :=
  {| Recog.lbph_train := keep_samples;
     Recog.model_write := Recog.Completes;
     Recog.mapping_write := Recog.Completes |}.

(** As [env_fine], but [name_mapping.json] cannot be opened for writing. *)
Definition env_mapping_locked : Recog.environment (list (image * Z)) :=
  {| Recog.lbph_train := keep_samples;
     Recog.model_write := Recog.Completes;
     Recog.mapping_write := Recog.RaisesBefore |}.

(** As [env_fine], but the dump of the mapping raises after the file was
    opened. *)
Definition env_dump_fails : Recog.environment (list (image * Z)) :=
  {| Recog.lbph_train := keep_samples;
     Recog.model_write := Recog.Completes;
     Recog.mapping_write := Recog.RaisesAfter |}.

(** A recognizer whose [train] raises. *)
Definition env_refusing : Recog.environment (list (image * Z)) :=
  {| Recog.lbph_train := fun _ _ => None;
     Recog.model_write := Recog.Completes;
     Recog.mapping_write := Recog.Completes |}.

Definition no_artifacts : Recog.artifacts (list (image * Z)) :=
  {| Recog.model_file := Recog.Absent; Recog.mapping_file := Recog.Absent |}.

(** Another recognizer, whose model is the number of samples, over the
    artifacts of an earlier training. *)
Definition env_counting : Recog.environment nat :=
  {| Recog.lbph_train := fun faces _ => Some (length faces);
     Recog.model_write := Recog.Completes;
     Recog.mapping_write := Recog.Completes |}.

Definition stale_artifacts : Recog.artifacts nat :=
  {| Recog.model_file := Recog.Holds 7%nat;
     Recog.mapping_file := Recog.Holds (<["carol" := 0]> ∅) |}.

(** A detector that finds one face per pixel of the first row. *)
Definition per_pixel (gray : image) : list region :=
  imap (fun i _ => (Z.of_nat i, 0, 1, 1)) (default [] (head gray)).

(** A stand-in for the .jpg encoder: a two-byte header, then the pixels
    halved. *)
Definition toy_jpeg (img : image) : list Z :=
  255 :: 216 :: ((fun v => v / 2) <$> concat img).

(** An enrollment by [name] on camera 0, the only camera that opens, with
    the cascade loaded. *)
Definition enroll_env (name : string) (feed : list Dataset.read_result)
    : Dataset.environment :=
  {| Dataset.user_name := name;
     Dataset.cascade_file := Dataset.Loaded per_pixel;
     Dataset.cam_index := 0;
     Dataset.cameras := fun index => if index =? 0 then Some feed else None;
     Dataset.display := true;
     Dataset.jpeg := toy_jpeg |}.

(** Fifty frames of one face each, no key pressed. *)
Definition feed_exact : list Dataset.read_result :=
  replicate 50 (Dataset.Frame [[5]] (-1)).

(** Sixty-one frames of one face each; 'q' is down while the first is shown. *)
Definition feed_quit : list Dataset.read_result :=
  Dataset.Frame [[5]] 113 :: replicate 60 (Dataset.Frame [[5]] (-1)).

(** Forty-nine frames of one face, then a frame of two. *)
Definition feed_overshoot : list Dataset.read_result :=
  replicate 49 (Dataset.Frame [[5]] (-1)) ++ [Dataset.Frame [[5; 6]] (-1)].

(** A store in which "alice" already has a file of another name. *)
Definition store_stale : Dataset.sample_store :=
  {| Dataset.cwd := [];
     Dataset.tree :=
       <[ ["dataset"; "alice"; "old.jpg"] := Dataset.File [9] ]>
         (<[ ["dataset"; "alice"] := Dataset.Folder ]>
            (<[ ["dataset"] := Dataset.Folder ]> ∅));
     Dataset.denied := fun _ => false |}.

(** A store in which a file named "alice" lies where the partition would
    go. *)
Definition store_blocked : Dataset.sample_store :=
  {| Dataset.cwd := [];
     Dataset.tree :=
       <[ ["dataset"; "alice"] := Dataset.File [1; 2; 3] ]>
         (<[ ["dataset"] := Dataset.Folder ]> ∅);
     Dataset.denied := fun _ => false |}.

(** A store mounted read-only: "alice" has a directory, and nothing can
    be created or written. *)
Definition store_readonly : Dataset.sample_store :=
  {| Dataset.cwd := [];
     Dataset.tree :=
       <[ ["dataset"; "alice"] := Dataset.Folder ]>
         (<[ ["dataset"] := Dataset.Folder ]> ∅);
     Dataset.denied := fun _ => true |}.

End Fixtures.

(** * Properties of login.py *)
Section login_facts.
Import Login.

Implicit Types (app : FaceLoginApp) (gray : image) (r : region)
  (st : frame_locals) (v : decision).

Lemma threshold_is_65 (c : float) :
  score_below c CONF_THRESHOLD = (c <? 65)%float.
Proof. reflexivity. Qed.

Lemma verdict_score app gray r :
  verdict app gray r =
    if score_below (recognizer app (crop gray r)).2 CONF_THRESHOLD
    then Accept (default "Unknown" (id_to_name app !! (recognizer app (crop gray r)).1))
    else Reject.
Proof.
  unfold verdict, process_face.
  destruct (recognizer app (crop gray r)) as [id_num confidence]; simpl.
  by destruct (score_below confidence CONF_THRESHOLD).
Qed.

Lemma process_face_absorb app gray st r :
  (process_face app gray st r).1 = absorb st (verdict app gray r).
Proof.
  rewrite verdict_score. unfold process_face.
  destruct (recognizer app (crop gray r)) as [id_num confidence]; simpl.
  by destruct (score_below confidence CONF_THRESHOLD).
Qed.

Lemma process_faces_absorb app gray faces : forall st drawn,
  (process_faces app gray st drawn faces).1 =
    foldl absorb st (verdict app gray <$> faces).
Proof.
  induction faces as [|r rest IH]; intros st drawn; [done|].
  simpl. pose proof (process_face_absorb app gray st r) as Hr.
  destruct (process_face app gray st r) as [st' o]; simpl in Hr.
  rewrite IH. by rewrite Hr.
Qed.

Lemma update_frame_status app g gray :
  cap_working app = true ->
  let st := foldl absorb initial_locals (verdicts app gray) in
  status_var (update_frame app g (Some gray)) = status_text st /\
  status_fg (update_frame app g (Some gray)) = status_color st.
Proof.
  intros Hcap. unfold update_frame, verdicts. rewrite Hcap. simpl.
  pose proof (process_faces_absorb app gray (face_detector app gray)
                initial_locals []) as H.
  destruct (process_faces app gray initial_locals [] (face_detector app gray))
    as [st drawn]; simpl in H. by rewrite H.
Qed.

(** Rejections leave the locals of a logged-in frame alone. *)
Lemma absorb_rejects_logged st (vs : list decision) :
  is_Some (logged_in_name st) ->
  Forall (fun v => v = Reject) vs ->
  foldl absorb st vs = st.
Proof.
  intros [n Hn] Hvs. induction Hvs as [|v vs -> _ IH]; [done|].
  simpl. by rewrite Hn.
Qed.

(** With nobody logged in, rejections end in [failed] unless there are none. *)
Lemma absorb_rejects_fresh st (vs : list decision) :
  logged_in_name st = None ->
  Forall (fun v => v = Reject) vs ->
  foldl absorb st vs = match vs with [] => st | _ :: _ => failed end.
Proof.
  intros Hst Hvs. revert st Hst.
  induction Hvs as [|v vs -> Hvs IH]; intros st Hst; [done|].
  simpl. rewrite Hst. rewrite IH by done. by destruct vs.
Qed.

End login_facts.

Section login_claims.
Import Login Fixtures.

(** C3. Per-region decision rule: whatever label and score [predict]
    returns for a region, the region is accepted (verdict [Accept], green
    overlay) if and only if the score is strictly below the threshold 65,
    and is rejected (verdict [Reject], red "Login Failed" overlay)
    otherwise; a score exactly equal to 65 is rejected. *)
Theorem decision_rule_strict app gray st r (id_num : Z) (score : float) :
  recognizer app (crop gray r) = (id_num, score) ->
  ((exists name, verdict app gray r = Accept name) <-> (score <? 65)%float = true) /\
  (verdict app gray r = Reject <-> (score <? 65)%float = false) /\
  (ov_color (process_face app gray st r).2 = GREEN <-> (score <? 65)%float = true) /\
  (ov_text (process_face app gray st r).2 = "Login Failed"
     <-> (score <? 65)%float = false) /\
  (score = 65%float -> verdict app gray r = Reject).
Proof.
  intros Hp.
  assert (Hv := verdict_score app gray r).
  unfold process_face. rewrite Hp in *. simpl in Hv.
  rewrite threshold_is_65 in *.
  destruct (score <? 65)%float eqn:Hlt; rewrite Hv; simpl.
  - repeat split; try done; eauto.
    intros ->. by vm_compute in Hlt.
  - repeat split; try done. by intros [? ?].
Qed.

Lemma decision_rule_strict_witness :
  verdict app3 [[40]] (0, 0, 1, 1) = Reject /\
  verdict app3 [[20]] (0, 0, 1, 1) = Accept "Alice".
Proof.
  pose proof (decision_rule_strict app3 [[40]] initial_locals (0, 0, 1, 1)
                0 65%float eq_refl) as (_ & _ & _ & _ & Hedge).
  split; [exact (Hedge eq_refl) | reflexivity].
Defined.

(** C5. Frame status without an acceptance: for every frame that is read
    and in which no region's verdict is [Accept], the status is
    "Login Failed" (red) if the detector returned at least one region, and
    stays "Scanning for face..." (black) if it returned none. *)
Theorem status_without_acceptance app g gray :
  cap_working app = true ->
  (forall r, r ∈ face_detector app gray -> verdict app gray r = Reject) ->
  let g' := update_frame app g (Some gray) in
  match face_detector app gray with
  | [] => status_var g' = "Scanning for face..." /\ status_fg g' = "black"
  | _ :: _ => status_var g' = "Login Failed" /\ status_fg g' = "red"
  end.
Proof.
  intros Hcap Hrej g'.
  destruct (update_frame_status app g gray Hcap) as [Htext Hcolor].
  fold g' in Htext, Hcolor. rewrite Htext, Hcolor.
  assert (Forall (fun v => v = Reject) (verdicts app gray)) as Hall.
  { unfold verdicts. apply Forall_fmap, Forall_forall. intros r Hr. by apply Hrej. }
  rewrite (absorb_rejects_fresh initial_locals _ eq_refl Hall).
  unfold verdicts. by destruct (face_detector app gray).
Qed.

Lemma status_without_acceptance_witness :
  status_var (update_frame (app_of two_faces) gui0 (Some [[10; 10]])) = "Login Failed" /\
  status_fg (update_frame (app_of two_faces) gui0 (Some [[10; 10]])) = "red".
Proof.
  assert (forall r, r ∈ two_faces ->
            verdict (app_of two_faces) [[10; 10]] r = Reject) as Hrej.
  { intros r Hr.
    repeat (apply elem_of_cons in Hr as [-> | Hr]; [reflexivity|]).
    by apply elem_of_nil in Hr. }
  exact (status_without_acceptance (app_of two_faces) gui0 [[10; 10]] eq_refl Hrej).
Defined.

(** C1, as stated, fails: with the verdicts [reject, accept(Alice),
    accept(Bob)] in detection order the status is "Welcome, Bob!", not
    Alice's. *)
Lemma first_acceptance_overwritten :
  verdicts app3 gray3 = [Reject; Accept "Alice"; Accept "Bob"] /\
  status_var (update_frame app3 gui0 (Some gray3)) = "Welcome, Bob!" /\
  status_var (update_frame app3 gui0 (Some gray3)) <> "Welcome, Alice!".
Proof. by vm_compute. Qed.

(** C1, amended. Frame status follows the LAST acceptance: for every frame
    that is read, if a region is accepted for an identity and every region
    the detector returned after it is rejected, the status is
    "Welcome, <identity>!" (green), whatever the verdicts before it were.
    So a rejection after an acceptance never changes the status, and a
    later acceptance replaces an earlier one. *)
Theorem status_last_acceptance app g gray (pre post : list region) r name :
  cap_working app = true ->
  face_detector app gray = pre ++ r :: post ->
  verdict app gray r = Accept name ->
  (forall r', r' ∈ post -> verdict app gray r' = Reject) ->
  status_var (update_frame app g (Some gray)) = "Welcome, " +:+ name +:+ "!" /\
  status_fg (update_frame app g (Some gray)) = "green".
Proof.
  intros Hcap Hfaces Hacc Hrej.
  destruct (update_frame_status app g gray Hcap) as [-> ->].
  unfold verdicts. rewrite Hfaces, fmap_app, fmap_cons, foldl_app. simpl.
  rewrite Hacc. simpl.
  rewrite (absorb_rejects_logged (welcome name)); [done|by eexists|].
  apply Forall_fmap, Forall_forall. intros r' Hr'. by apply Hrej.
Qed.

Lemma status_last_acceptance_witness :
  status_var (update_frame app3 gui0 (Some gray3)) = "Welcome, Bob!" /\
  status_fg (update_frame app3 gui0 (Some gray3)) = "green".
Proof.
  apply (status_last_acceptance app3 gui0 gray3
           [(0, 0, 1, 1); (1, 0, 1, 1)] [] (2, 0, 1, 1) "Bob");
    [reflexivity | reflexivity | reflexivity |].
  intros r' Hr'. by apply elem_of_nil in Hr'.
Defined.

End login_claims.

(** * Properties of recog.py *)
Section recog_facts.
Import Recog.

Implicit Types (w : walk) (names : list string) (m : gmap string Z).

Lemma load_image_labels user_id w f :
  name_to_id (load_image user_id w f) = name_to_id w /\
  current_id (load_image user_id w f) = current_id w.
Proof.
  destruct f as [img_name [face_img|]]; unfold load_image;
    by destruct (is_image_name img_name).
Qed.

Lemma load_images_labels user_id files : forall w,
  name_to_id (foldl (load_image user_id) w files) = name_to_id w /\
  current_id (foldl (load_image user_id) w files) = current_id w.
Proof.
  induction files as [|f files IH]; intros w; [done|].
  simpl. destruct (IH (load_image user_id w f)) as [-> ->].
  apply load_image_labels.
Qed.

(** The files of a partition never influence the labels. *)
Lemma visit_labels w e :
  (name_to_id (visit w e), current_id (visit w e)) =
    foldl assign (name_to_id w, current_id w) (partitions [e]).
Proof.
  destruct e as [dir_name [|files]]; [done|].
  unfold partitions, visit, assign; simpl.
  destruct (name_to_id w !! dir_name) as [known|] eqn:Hk.
  - by destruct (load_images_labels known files w) as [-> ->].
  - match goal with |- context [foldl _ ?w1 files] =>
      by destruct (load_images_labels (current_id w) files w1) as [-> ->]
    end.
Qed.

Lemma partitions_cons e entries :
  partitions (e :: entries) = partitions [e] ++ partitions entries.
Proof. unfold partitions. simpl. by destruct (e.2). Qed.

Lemma walk_labels entries : forall w,
  (name_to_id (foldl visit w entries), current_id (foldl visit w entries)) =
    foldl assign (name_to_id w, current_id w) (partitions entries).
Proof.
  induction entries as [|e entries IH]; intros w; [done|].
  rewrite partitions_cons, foldl_app. simpl foldl at 1.
  by rewrite IH, visit_labels.
Qed.

Lemma discovery_order_elem names x :
  x ∈ discovery_order names <-> x ∈ names.
Proof.
  induction names as [|y names IH]; [done|]. simpl.
  rewrite !elem_of_cons, list_elem_of_filter, IH.
  destruct (decide (x = y)); intuition congruence.
Qed.

Lemma discovery_order_NoDup names : NoDup (discovery_order names).
Proof.
  induction names as [|y names IH]; simpl; [constructor|].
  constructor; [|by apply NoDup_filter].
  rewrite list_elem_of_filter. intros [Hne _]. by apply Hne.
Qed.

(** Meeting a name once more changes nothing; a new name goes last. *)
Lemma discovery_order_snoc names x :
  discovery_order (names ++ [x]) =
    if decide (x ∈ names) then discovery_order names
    else discovery_order names ++ [x].
Proof.
  induction names as [|y names IH]; simpl.
  - done.
  - rewrite IH.
    destruct (decide (x ∈ y :: names)) as [Hin'|Hin'],
             (decide (x ∈ names)) as [Hin|Hin]; [done| | |].
    + apply elem_of_cons in Hin' as [->|?]; [|done].
      rewrite filter_app, filter_cons_False by (intros Hne; by apply Hne).
      by rewrite filter_nil, app_nil_r.
    + destruct Hin'. by apply list_elem_of_further.
    + apply not_elem_of_cons in Hin' as [Hxy _].
      rewrite filter_app, filter_cons_True by done. by rewrite filter_nil.
Qed.

Lemma assign_labelled names : labelled names (foldl assign (∅, 0) names).
Proof.
  induction names as [|x names IH] using rev_ind.
  - split; [done|]. intros name k. simpl. rewrite lookup_empty.
    split; [done|]. by intros (i & _ & Hi).
  - rewrite foldl_app. simpl.
    destruct (foldl assign (∅, 0) names) as [m c].
    destruct IH as [Hc Hm]. simpl in Hc, Hm.
    unfold labelled, assign. simpl. rewrite discovery_order_snoc.
    destruct (m !! x) as [k|] eqn:Hx.
    + apply Hm in Hx as (i & -> & Hi).
      apply list_elem_of_lookup_2 in Hi. rewrite discovery_order_elem in Hi.
      by rewrite decide_True.
    + assert (x ∉ names) as Hnew.
      { intros Hin. rewrite <- discovery_order_elem in Hin.
        apply list_elem_of_lookup_1 in Hin as [i Hi].
        assert (m !! x = Some (Z.of_nat i)) as Hsome by (apply Hm; eauto).
        congruence. }
      rewrite decide_False by done. simpl. split.
      * rewrite length_app. simpl. lia.
      * intros name k. destruct (decide (name = x)) as [->|Hne].
        -- rewrite lookup_insert_eq. split.
           ++ intros [= <-]. exists (length (discovery_order names)).
              split; [done|]. by rewrite list_lookup_middle.
           ++ intros (i & -> & Hi). f_equal. subst c. f_equal.
              apply lookup_app_Some in Hi as [Hi|[Hlen Hi]].
              ** apply list_elem_of_lookup_2 in Hi.
                 by rewrite discovery_order_elem in Hi.
              ** apply list_lookup_singleton_Some in Hi as [Hi _]. lia.
        -- rewrite lookup_insert_ne by done. rewrite Hm. split.
           ++ intros (i & -> & Hi). exists i. split; [done|].
              by apply lookup_app_l_Some.
           ++ intros (i & -> & Hi). exists i. split; [done|].
              apply lookup_app_Some in Hi as [Hi|[Hlen Hi]]; [done|].
              apply list_lookup_singleton_Some in Hi as [_ Hi]. congruence.
Qed.

Lemma enumerate_labelled entries :
  labelled (partitions entries)
    (name_to_id (enumerate entries), current_id (enumerate entries)).
Proof. unfold enumerate. rewrite walk_labels. apply assign_labelled. Qed.

Lemma load_images_registered user_id owner files : forall w,
  name_to_id w !! owner = Some user_id ->
  ids_registered w ->
  ids_registered (foldl (load_image user_id) w files).
Proof.
  induction files as [|[img_name read] files IH]; intros w Hown Hreg; [done|].
  cbn [foldl]. apply IH.
  - by destruct (load_image_labels user_id w (img_name, read)) as [-> _].
  - unfold load_image. destruct (is_image_name img_name), read; simpl; try done.
    intros label. simpl. rewrite elem_of_app, list_elem_of_singleton.
    intros [Hin| ->]; [by apply Hreg | by exists owner].
Qed.

Lemma visit_registered w e : ids_registered w -> ids_registered (visit w e).
Proof.
  intros Hreg. destruct e as [dir_name [|files]]; [done|]. simpl.
  destruct (name_to_id w !! dir_name) as [known|] eqn:Hk.
  - by apply (load_images_registered known dir_name).
  - apply (load_images_registered _ dir_name); simpl.
    + apply lookup_insert_eq.
    + intros label Hin. destruct (Hreg label Hin) as [name Hname].
      exists name. simpl. rewrite lookup_insert_ne; [done|]. congruence.
Qed.

Lemma enumerate_registered entries : ids_registered (enumerate entries).
Proof.
  unfold enumerate.
  assert (ids_registered walk_start) as Hstart.
  { intros label Hin. by apply elem_of_nil in Hin. }
  revert Hstart. generalize walk_start.
  induction entries as [|e entries IH]; intros w Hw; [done|].
  simpl. by apply IH, visit_registered.
Qed.

(** The reverse mapping finds the name of every label of an injective
    mapping. *)
Lemma reverse_mapping_lookup m name label :
  (forall a b k, m !! a = Some k -> m !! b = Some k -> a = b) ->
  m !! name = Some label ->
  Login.reverse_mapping m !! label = Some name.
Proof.
  intros Hinj Hname.
  assert ((forall v k, Login.reverse_mapping m !! v = Some k -> m !! k = Some v) /\
          (forall k v, m !! k = Some v -> is_Some (Login.reverse_mapping m !! v)))
    as [Hback Hforth].
  { unfold Login.reverse_mapping. clear Hinj Hname.
    apply (map_fold_weak_ind
             (fun (r : gmap Z string) (m0 : gmap string Z) =>
                (forall v k, r !! v = Some k -> m0 !! k = Some v) /\
                (forall k v, m0 !! k = Some v -> is_Some (r !! v)))).
    - split; intros ? ?; by rewrite lookup_empty.
    - intros i x m0 r Hi [Hback Hforth]. split.
      + intros v k. destruct (decide (x = v)) as [->|Hne].
        * rewrite lookup_insert_eq. intros [= ->]. apply lookup_insert_eq.
        * rewrite lookup_insert_ne by done. intros Hr.
          apply Hback in Hr. rewrite lookup_insert_ne; [done|]. congruence.
      + intros k v. destruct (decide (i = k)) as [->|Hne].
        * rewrite lookup_insert_eq. intros [= ->]. rewrite lookup_insert_eq. eauto.
        * rewrite lookup_insert_ne by done. intros Hkv.
          destruct (decide (x = v)) as [->|Hxv].
          -- rewrite lookup_insert_eq. eauto.
          -- rewrite lookup_insert_ne by done. eauto. }
  destruct (Hforth _ _ Hname) as [name' Hname'].
  rewrite Hname'. f_equal. eapply Hinj; [|exact Hname]. by apply Hback.
Qed.

Lemma labelled_injective names (mc : gmap string Z * Z) :
  labelled names mc ->
  forall a b k, mc.1 !! a = Some k -> mc.1 !! b = Some k -> a = b.
Proof.
  intros [_ Hm] a b k Ha Hb.
  apply Hm in Ha as (i & -> & Hi), Hb as (j & Hij & Hj).
  apply Nat2Z.inj in Hij as ->. congruence.
Qed.

(** What a run that ends on "Training complete." has done. *)
Lemma train_model_trained {model} (env : environment model) entries fs :
  ended (train_model env (Listing entries) fs) = Trained ->
  exists trained : model,
    lbph_train env (faces (enumerate entries)) (ids (enumerate entries)) = Some trained /\
    written (train_model env (Listing entries) fs) = [MODEL_PATH; MAPPING_PATH] /\
    after (train_model env (Listing entries) fs) =
      {| model_file := Holds trained;
         mapping_file := Holds (name_to_id (enumerate entries)) |}.
Proof.
  unfold train_model.
  destruct (faces (enumerate entries)) as [|face rest]; [done|].
  destruct (lbph_train env (face :: rest) (ids (enumerate entries)))
    as [trained|]; [|done].
  destruct (model_write env); [|done..].
  destruct (mapping_write env); [|done..]. eauto.
Qed.

End recog_facts.

Section recog_claims.
Import Recog Fixtures.

(** C4. Labels are dense, zero-based and given out in discovery order:
    after the walk over any listing, the [i]-th partition name first met
    has label [i]; the mapping is defined on exactly the partitions
    present, is injective, and its labels are exactly 0, ..., n-1, where n
    is the number of distinct partitions (also the size of the mapping and
    the final counter). *)
Theorem labels_dense_in_discovery_order (entries : list (string * dir_entry)) :
  let w := enumerate entries in
  let order := discovery_order (partitions entries) in
  let n := length order in
  (forall (i : nat) name, order !! i = Some name ->
     name_to_id w !! name = Some (Z.of_nat i)) /\
  (forall name, is_Some (name_to_id w !! name) <-> name ∈ partitions entries) /\
  (forall a b k, name_to_id w !! a = Some k -> name_to_id w !! b = Some k -> a = b) /\
  (forall k, (exists name, name_to_id w !! name = Some k) <-> 0 <= k < Z.of_nat n) /\
  current_id w = Z.of_nat n /\
  size (name_to_id w) = n.
Proof.
  intros w order n.
  pose proof (enumerate_labelled entries) as Hlab.
  pose proof (labelled_injective _ _ Hlab) as Hinj.
  destruct Hlab as [Hc Hm]. simpl in Hc, Hm, Hinj.
  fold w order in Hc, Hm, Hinj. fold n in Hc.
  assert (forall name, is_Some (name_to_id w !! name) <-> name ∈ order) as Hdom.
  { intros name. split.
    - intros [k Hk]. apply Hm in Hk as (i & _ & Hi).
      by apply list_elem_of_lookup_2 in Hi.
    - intros Hin. apply list_elem_of_lookup_1 in Hin as [i Hi].
      exists (Z.of_nat i). apply Hm. eauto. }
  split; [|split; [|split; [|split; [|split]]]].
  - intros i name Hi. apply Hm. eauto.
  - intros name. rewrite Hdom. apply discovery_order_elem.
  - exact Hinj.
  - intros k. split.
    + intros [name Hk]. apply Hm in Hk as (i & -> & Hi).
      apply lookup_lt_Some in Hi. unfold n. lia.
    + intros [Hlo Hhi].
      destruct (lookup_lt_is_Some_2 order (Z.to_nat k)) as [name Hname];
        [unfold n in Hhi; lia|].
      exists name. apply Hm. exists (Z.to_nat k). split; [lia|done].
  - exact Hc.
  - rewrite <- size_dom.
    replace (dom (name_to_id w)) with (list_to_set order : gset string).
    + apply size_list_to_set, discovery_order_NoDup.
    + apply set_eq. intros name.
      by rewrite elem_of_list_to_set, elem_of_dom, Hdom.
Qed.

(** C6. Label assignment is deterministic and depends on the enumeration
    order of the partitions only: two walks over listings with the same
    sequence of partition names (in particular over the same snapshot in
    the same order) compute the same mapping, whatever the files, the
    recognizer, the earlier artifacts and the write failures of the two
    runs are; and if both runs end on "Training complete." they persist
    the same mapping. *)
Theorem label_assignment_deterministic {model1 model2 : Type}
    (env1 : environment model1) (env2 : environment model2)
    (fs1 : artifacts model1) (fs2 : artifacts model2)
    (entries1 entries2 : list (string * dir_entry)) :
  partitions entries1 = partitions entries2 ->
  name_to_id (enumerate entries1) = name_to_id (enumerate entries2) /\
  (ended (train_model env1 (Listing entries1) fs1) = Trained ->
   ended (train_model env2 (Listing entries2) fs2) = Trained ->
   mapping_file (after (train_model env1 (Listing entries1) fs1)) =
     mapping_file (after (train_model env2 (Listing entries2) fs2))).
Proof.
  intros Hsame.
  assert (name_to_id (enumerate entries1) = name_to_id (enumerate entries2)) as Heq.
  { pose proof (walk_labels entries1 walk_start) as H1.
    pose proof (walk_labels entries2 walk_start) as H2.
    rewrite Hsame in H1. rewrite <- H2 in H1.
    unfold enumerate. congruence. }
  split; [done|]. intros Hrun1 Hrun2.
  apply train_model_trained in Hrun1 as (? & _ & _ & ->).
  apply train_model_trained in Hrun2 as (? & _ & _ & ->).
  simpl. by rewrite Heq.
Qed.

Lemma label_assignment_deterministic_witness :
  name_to_id (enumerate two_users) = name_to_id (enumerate two_users_later) /\
  mapping_file (after (train_model env_fine (Listing two_users) no_artifacts)) =
  mapping_file (after (train_model env_counting (Listing two_users_later)
                         stale_artifacts)).
Proof.
  destruct (label_assignment_deterministic env_fine env_counting
              no_artifacts stale_artifacts two_users two_users_later eq_refl)
    as [Hwalk Hruns].
  split; [exact Hwalk | exact (Hruns eq_refl eq_refl)].
Defined.

(** C10. In every run that writes the artifacts, each label of the
    trained collection is a value of the persisted mapping, and the engine's
    reverse registry built from that mapping finds a name for it (so the
    "Unknown" fallback is not taken for it).  The converse fails: in the
    dataset [two_users] the partition "bob" holds no readable image, yet
    the persisted mapping gives "bob" the label 1, which labels no
    sample. *)
Theorem trained_labels_are_registered :
  (forall (model : Type) (env : environment model) entries fs label,
     ended (train_model env (Listing entries) fs) = Trained ->
     label ∈ ids (enumerate entries) ->
     exists name mapping,
       mapping_file (after (train_model env (Listing entries) fs)) = Holds mapping /\
       mapping !! name = Some label /\
       Login.reverse_mapping mapping !! label = Some name /\
       default "Unknown" (Login.reverse_mapping mapping !! label) = name) /\
  (ended (train_model env_fine (Listing two_users) no_artifacts) = Trained /\
   mapping_file (after (train_model env_fine (Listing two_users) no_artifacts))
     = Holds (<["bob" := 1]> (<["alice" := 0]> ∅)) /\
   ids (enumerate two_users) = [0; 0]).
Proof.
  split; [|by vm_compute].
  intros model env entries fs label Hrun Hin.
  apply train_model_trained in Hrun as (trained & _ & _ & ->).
  destruct (enumerate_registered entries label Hin) as [name Hname].
  exists name, (name_to_id (enumerate entries)).
  assert (Login.reverse_mapping (name_to_id (enumerate entries)) !! label = Some name)
    as Hrev.
  { apply reverse_mapping_lookup; [|done].
    apply (labelled_injective _ _ (enumerate_labelled entries)). }
  repeat split; [done|done|]. by rewrite Hrev.
Qed.

Lemma trained_labels_are_registered_witness :
  exists name mapping,
    mapping_file (after (train_model env_fine (Listing two_users) no_artifacts))
      = Holds mapping /\
    mapping !! name = Some 0 /\
    Login.reverse_mapping mapping !! 0 = Some name /\
    default "Unknown" (Login.reverse_mapping mapping !! 0) = name.
Proof.
  apply (proj1 trained_labels_are_registered _ env_fine two_users no_artifacts 0);
    [reflexivity|].
  apply list_elem_of_here.
Defined.

(** C2, as stated, fails: when [name_mapping.json] cannot be opened for
    writing, the run has already written [model.yml]; it wrote neither
    both artifacts nor none.  And when the dump of the mapping raises after
    the file was opened, the model is written and the mapping is left
    torn. *)
Lemma model_written_without_mapping :
  (let r := train_model env_mapping_locked (Listing two_users) no_artifacts in
   written r = [MODEL_PATH] /\
   model_file (after r) = Holds [([[20]], 0); ([[21]], 0)] /\
   mapping_file (after r) = Absent /\
   ~ (both_written r \/ none_written no_artifacts r)) /\
  (let r := train_model env_dump_fails (Listing two_users) no_artifacts in
   written r = [MODEL_PATH] /\
   torn r = [MAPPING_PATH] /\
   model_file (after r) = Holds [([[20]], 0); ([[21]], 0)] /\
   mapping_file (after r) = Torn /\
   ~ (both_written r \/ none_written no_artifacts r)).
Proof.
  split; repeat split; try reflexivity.
  all: intros [[_ Hmap] | [Hnone _]]; [|discriminate Hnone].
  all: vm_compute in Hmap; apply list_elem_of_singleton in Hmap; discriminate Hmap.
Qed.

(** C2, amended. On each of the three failure paths (dataset directory
    absent, no valid sample found, [recognizer.train] raising) the run
    writes nothing and leaves the artifacts as they were.  A run writes
    both artifacts completely exactly when it ends on "Training complete.".
    Any other run that touches a file is one in which a write raised; there
    the model can be written, or left torn, without the mapping, but the
    mapping file is touched only after the model was written completely. *)
Theorem train_model_writes {model : Type} (env : environment model)
    (d : dataset) (fs : artifacts model) :
  let r := train_model env d fs in
  (d = Missing -> none_written fs r) /\
  (forall entries, d = Listing entries -> faces (enumerate entries) = [] ->
     none_written fs r) /\
  (forall entries, d = Listing entries ->
     lbph_train env (faces (enumerate entries)) (ids (enumerate entries)) = None ->
     none_written fs r) /\
  (ended r = Trained <-> both_written r) /\
  (ended r = Trained ->
   torn r = [] /\
   exists trained mapping,
     after r = {| model_file := Holds trained; mapping_file := Holds mapping |}) /\
  (none_written fs r \/ both_written r \/ ended r = WriteRaised) /\
  (MAPPING_PATH ∈ written r ++ torn r -> MODEL_PATH ∈ written r).
Proof.
  intros r. subst r. unfold none_written, both_written.
  assert (forall how, none_written fs (untouched how fs)) as Hnone by done.
  assert (forall how : outcome,
            how <> Trained ->
            (how = Trained <-> MODEL_PATH ∈ [] /\ MAPPING_PATH ∈ @nil string) /\
            (how = Trained ->
             @nil string = [] /\
             exists trained mapping,
               fs = {| model_file := Holds trained; mapping_file := Holds mapping |}) /\
            (none_written fs (untouched how fs) \/
             (MODEL_PATH ∈ [] /\ MAPPING_PATH ∈ @nil string) \/ how = WriteRaised) /\
            (MAPPING_PATH ∈ @nil string ++ [] -> MODEL_PATH ∈ @nil string))
    as Hidle.
  { intros how Hhow. split; [|split; [|split]].
    - split; [done|]. intros [Hin _]. by apply elem_of_nil in Hin.
    - done.
    - by left.
    - intros Hin. by apply elem_of_nil in Hin. }
  destruct d as [| |entries]; simpl.
  1, 2: split; [done|]; split; [done|]; split; [done|]; by apply Hidle.
  destruct (faces (enumerate entries)) as [|face rest] eqn:Hfaces.
  { split; [done|]. split; [done|]. split; [done|]. by apply Hidle. }
  destruct (lbph_train env (face :: rest) (ids (enumerate entries)))
    as [trained|] eqn:Htrain.
  2: { split; [done|]. split; [done|]. split; [done|]. by apply Hidle. }
  split; [done|].
  split; [intros ? [= <-]; by rewrite Hfaces|].
  split; [intros ? [= <-]; rewrite Hfaces; by rewrite Htrain|].
  destruct (model_write env); [destruct (mapping_write env)| |]; simpl.
  - split; [split; [intros _; set_solver | done]|].
    split; [eauto|]. split; [right; left; set_solver | set_solver].
  - split; [split; [done | intros [_ Hin]; set_solver]|].
    split; [done|]. split; [by right; right | set_solver].
  - split; [split; [done | intros [_ Hin]; set_solver]|].
    split; [done|]. split; [by right; right | set_solver].
  - by apply Hidle.
  - split; [split; [done | intros [Hin _]; set_solver]|].
    split; [done|]. split; [by right; right | set_solver].
Qed.

Lemma train_model_writes_witness :
  none_written stale_artifacts (train_model env_counting Missing stale_artifacts) /\
  none_written stale_artifacts
    (train_model env_counting (Listing [("bob", UserDir [("broken.png", None)])])
       stale_artifacts) /\
  none_written no_artifacts
    (train_model env_refusing (Listing two_users) no_artifacts).
Proof.
  split; [|split].
  - exact (proj1 (train_model_writes env_counting Missing stale_artifacts) eq_refl).
  - exact (proj1 (proj2 (train_model_writes env_counting
                           (Listing [("bob", UserDir [("broken.png", None)])])
                           stale_artifacts)) _ eq_refl eq_refl).
  - exact (proj1 (proj2 (proj2 (train_model_writes env_refusing
                                  (Listing two_users) no_artifacts)))
             _ eq_refl eq_refl).
Defined.

End recog_claims.

(** * Properties of dataset.py *)
Section dataset_facts.
Import Dataset.

Implicit Types (store : sample_store) (name file : string) (gray : image)
  (trace : list event) (feed : list read_result) (dir p : path)
  (acc : nat * sample_store * list event).

Lemma string_length_app (s t : string) :
  String.length (s +:+ t) = (String.length s + String.length t)%nat.
Proof. induction s as [|c s IH]; simpl; [done|]. by rewrite IH. Qed.

Lemma string_app_inj_r (s a b : string) : a +:+ s = b +:+ s -> a = b.
Proof.
  revert b. induction a as [|c a IH]; intros [|c' b] Heq; simpl in Heq.
  - done.
  - apply (f_equal String.length) in Heq. simpl in Heq.
    rewrite !string_length_app in Heq. simpl in Heq. lia.
  - apply (f_equal String.length) in Heq. simpl in Heq.
    rewrite !string_length_app in Heq. simpl in Heq. lia.
  - injection Heq as -> Heq. f_equal. by apply IH.
Qed.

Lemma image_name_inj (a b : nat) : image_name a = image_name b -> a = b.
Proof.
  unfold image_name. intros Heq.
  apply (inj (String.append "image_")) in Heq.
  apply string_app_inj_r in Heq. by apply (inj pretty) in Heq.
Qed.

Lemma sample_path_inj dir (a b : nat) :
  dir ++ [image_name a] = dir ++ [image_name b] -> a = b.
Proof. intros Heq. apply app_inv_head in Heq. apply image_name_inj. congruence. Qed.

(** *** Writing a file *)

Lemma cwd_imwrite dir file bytes store :
  cwd (imwrite dir file bytes store) = cwd store /\
  denied (imwrite dir file bytes store) = denied store.
Proof. unfold imwrite. by destruct (_ && _). Qed.

Lemma is_dir_imwrite dir file bytes store p :
  is_dir (imwrite dir file bytes store) p = is_dir store p.
Proof.
  unfold imwrite.
  destruct (is_dir store dir && negb (is_dir store (dir ++ [file]))
            && negb (denied store (dir ++ [file]))) eqn:Hok; [|done].
  apply andb_prop in Hok as [[_ Hfree]%andb_prop _].
  apply negb_true_iff in Hfree.
  unfold is_dir in *. simpl.
  destruct (decide (p = dir ++ [file])) as [->|Hne].
  - rewrite lookup_insert_eq. rewrite Hfree.
    apply orb_false_elim in Hfree as [-> _]. done.
  - by rewrite lookup_insert_ne.
Qed.

Lemma tree_imwrite dir file bytes store p :
  tree (imwrite dir file bytes store) !! p = tree store !! p \/
  (p = dir ++ [file] /\
   tree (imwrite dir file bytes store) !! p = Some (File bytes)).
Proof.
  unfold imwrite. destruct (_ && _); [|by left]. simpl.
  destruct (decide (p = dir ++ [file])) as [->|Hne].
  - right. by rewrite lookup_insert_eq.
  - left. by rewrite lookup_insert_ne.
Qed.

Lemma imwrite_done dir file bytes store :
  is_dir store dir = true ->
  is_dir store (dir ++ [file]) = false ->
  denied store (dir ++ [file]) = false ->
  tree (imwrite dir file bytes store) !! (dir ++ [file]) = Some (File bytes).
Proof.
  intros Hdir Hfree Hmay. unfold imwrite. rewrite Hdir, Hfree, Hmay. simpl.
  apply lookup_insert_eq.
Qed.

(** *** Stretches of the capture loop *)

Lemma writes_app dir (a b c : nat) :
  (a <= b)%nat -> (b <= c)%nat ->
  writes dir a b ++ writes dir b c = writes dir a c.
Proof.
  intros Hab Hbc. unfold writes. rewrite <- fmap_app. f_equal.
  replace (c - a)%nat with ((b - a) + (c - b))%nat by lia.
  rewrite seq_app. do 2 f_equal. lia.
Qed.

Lemma extends_refl dir acc : extends dir acc acc.
Proof.
  unfold extends, writes. rewrite Nat.sub_diag. simpl. rewrite app_nil_r.
  repeat split; try done; [by left|]. intros k Hk. lia.
Qed.

Lemma extends_trans dir acc1 acc2 acc3 :
  extends dir acc1 acc2 -> extends dir acc2 acc3 -> extends dir acc1 acc3.
Proof.
  intros (Hle1 & Htr1 & [Hcwd1 Hden1] & Hdir1 & Htree1 & Hnew1 & Hsame1)
         (Hle2 & Htr2 & [Hcwd2 Hden2] & Hdir2 & Htree2 & Hnew2 & Hsame2).
  split; [lia|]. split; [|split; [|split; [|split; [|split]]]].
  - rewrite Htr2, Htr1, <- app_assoc. by rewrite writes_app.
  - by rewrite Hcwd2, Hden2.
  - intros p. by rewrite Hdir2.
  - intros p. destruct (Htree2 p) as [Heq2|(k & bytes & Hk & -> & Hfile)].
    + destruct (Htree1 p) as [Heq1|(k & bytes & Hk & -> & Hfile)].
      * left. by rewrite Heq2.
      * right. exists k, bytes. split; [lia|]. split; [done|]. by rewrite Heq2.
    + right. exists k, bytes. split; [lia|done].
  - intros k Hk Hdir Hfree Hmay.
    destruct (decide (k <= acc2.1.1)%nat) as [Hlow|Hhigh].
    + destruct (Hnew1 k ltac:(lia) Hdir Hfree Hmay) as [bytes Hfile].
      destruct (Htree2 (dir ++ [image_name k]))
        as [Heq|(k' & bytes' & _ & _ & Hfile')]; [|by eauto].
      exists bytes. by rewrite Heq.
    + apply Hnew2; [lia| | |]; by rewrite ?Hdir1, ?Hden1.
  - intros Heq. rewrite Hsame2, Hsame1; [done|lia|lia].
Qed.

Lemma save_face_extends encode dir gray acc r :
  extends dir acc (save_face encode dir gray acc r).
Proof.
  destruct acc as [[count store] trace]. unfold save_face.
  destruct (0 <? size_of (crop gray r)); [|apply extends_refl].
  unfold extends, writes. simpl.
  replace (S count - count)%nat with 1%nat by lia. simpl.
  split; [lia|]. split; [done|]. split; [apply cwd_imwrite|].
  split; [intros p; apply is_dir_imwrite|]. split; [|split].
  - intros p. destruct (tree_imwrite dir (image_name (S count))
                          (encode (crop gray r)) store p) as [Heq|[-> Hfile]];
      [by left|].
    right. exists (S count), (encode (crop gray r)). split; [lia|done].
  - intros k Hk Hdir Hfree Hmay. replace k with (S count) in * by lia.
    eexists. by apply imwrite_done.
  - lia.
Qed.

Lemma save_faces_extends encode dir gray faces : forall acc,
  extends dir acc (save_faces encode dir gray faces acc).
Proof.
  unfold save_faces. induction faces as [|r faces IH]; intros acc.
  - apply extends_refl.
  - cbn [foldl]. eapply extends_trans; [apply save_face_extends | apply IH].
Qed.

(** The inner loop counts every face with a non-empty crop and never
    looks at [IMAGES_TO_CAPTURE]. *)
Lemma save_faces_count encode dir gray faces : forall acc,
  (save_faces encode dir gray faces acc).1.1 =
    (acc.1.1 + length (clear_faces gray faces))%nat.
Proof.
  unfold save_faces, clear_faces.
  induction faces as [|r faces IH]; intros [[count store] trace].
  - simpl. lia.
  - cbn [foldl]. rewrite IH, filter_cons. unfold save_face.
    destruct (0 <? size_of (crop gray r)) eqn:Hsize.
    + apply Z.ltb_lt in Hsize. rewrite decide_True by done. simpl. lia.
    + apply Z.ltb_ge in Hsize. rewrite decide_False by lia. done.
Qed.

Lemma capture_unfold detect encode shows dir feed acc :
  capture detect encode shows dir feed acc =
    if (IMAGES_TO_CAPTURE <=? acc.1.1)%nat then (Stopped Reached, acc)
    else
      match feed with
      | [] | ReadFailed :: _ => (Stopped FrameLost, acc)
      | Frame gray key :: rest =>
          match detect gray with
          | None => (Raised, acc)
          | Some faces =>
              let acc' := save_faces encode dir gray faces acc in
              if negb shows then (Raised, acc')
              else if is_quit key then (Stopped Interrupted, acc')
              else capture detect encode shows dir rest acc'
          end
      end.
Proof. by destruct feed. Qed.

Lemma capture_extends detect encode shows dir feed : forall acc,
  extends dir acc (capture detect encode shows dir feed acc).2.
Proof.
  induction feed as [|f feed IH]; intros acc; rewrite capture_unfold.
  - destruct (IMAGES_TO_CAPTURE <=? acc.1.1)%nat; apply extends_refl.
  - destruct (IMAGES_TO_CAPTURE <=? acc.1.1)%nat; [apply extends_refl|].
    destruct f as [|gray key]; [apply extends_refl|].
    destruct (detect gray) as [faces|]; [|apply extends_refl]. cbv zeta.
    destruct (negb shows); [apply save_faces_extends|].
    destruct (is_quit key).
    + apply save_faces_extends.
    + eapply extends_trans; [apply save_faces_extends | apply IH].
Qed.

End dataset_facts.

Section dataset_paths.
Import Dataset.

Implicit Types (store : sample_store) (name file : string)
  (dir p : path) (comps : list string).

(** *** Making directories *)

Lemma mkdir_Some p store store' :
  mkdir p store = Some store' ->
  store' = put p Folder store /\ tree store !! p = None.
Proof.
  unfold mkdir, exists_at. intros Hmade.
  destruct (tree store !! p) as [n|]; [|by case_match; simplify_eq].
  rewrite (bool_decide_eq_true_2 (is_Some (Some n))) in Hmade by eauto.
  by rewrite orb_true_r in Hmade.
Qed.

(** [os.makedirs] only makes directories, where nothing was. *)
Lemma make_along_tree comps : forall store (at_ : path) p,
  (cwd (make_along store at_ comps).1 = cwd store /\
   denied (make_along store at_ comps).1 = denied store) /\
  (tree (make_along store at_ comps).1 !! p = tree store !! p \/
   (tree store !! p = None /\
    tree (make_along store at_ comps).1 !! p = Some Folder)).
Proof.
  induction comps as [|c comps IH]; intros store at_ p; [by split; [|left]|].
  cbn [make_along]. destruct (is_dir store (step at_ c)); [apply IH|].
  destruct (mkdir (step at_ c) store) as [store'|] eqn:Hmade;
    [|by split; [|left]].
  apply mkdir_Some in Hmade as [-> Hnext].
  destruct (IH (put (step at_ c) Folder store) (step at_ c) p) as [Hcwd Htree].
  split; [done|]. simpl in Htree.
  destruct (decide (p = step at_ c)) as [->|Hne].
  - right. split; [done|]. rewrite lookup_insert_eq in Htree.
    by destruct Htree as [?|[? _]].
  - rewrite lookup_insert_ne in Htree by done. done.
Qed.

Lemma make_along_is_dir comps store (at_ : path) p :
  is_dir store p = true -> is_dir (make_along store at_ comps).1 p = true.
Proof.
  unfold is_dir. destruct (make_along_tree comps store at_ p) as [_ Htree].
  intros [Hroot|Hfolder]%orb_prop; apply orb_true_intro; [by left|right].
  destruct Htree as [->|[Hnone _]]; [done|]. by rewrite Hnone in Hfolder.
Qed.

(** Once [os.makedirs] has returned, the directory it was asked for
    exists. *)
Lemma make_along_reaches comps : forall store (at_ : path),
  (make_along store at_ comps).2 = true ->
  is_dir store at_ = true ->
  is_dir (make_along store at_ comps).1 (foldl step at_ comps) = true.
Proof.
  induction comps as [|c comps IH]; intros store at_ Hok Hat; [done|].
  cbn [make_along foldl] in *.
  destruct (is_dir store (step at_ c)) eqn:Hnext; [by apply IH|].
  destruct (mkdir (step at_ c) store) as [store'|] eqn:Hmade; [|done].
  apply mkdir_Some in Hmade as [-> _].
  apply IH; [done|]. unfold is_dir. simpl. rewrite lookup_insert_eq.
  apply orb_true_r.
Qed.

Lemma makedirs_tree (s : string) store p :
  (cwd (makedirs s store).1 = cwd store /\
   denied (makedirs s store).1 = denied store) /\
  (tree (makedirs s store).1 !! p = tree store !! p \/
   (tree store !! p = None /\ tree (makedirs s store).1 !! p = Some Folder)).
Proof.
  unfold makedirs. destruct (is_dir store (start store s));
    [apply make_along_tree | by split; [|left]].
Qed.

Lemma cwd_makedirs (s : string) store :
  cwd (makedirs s store).1 = cwd store /\
  denied (makedirs s store).1 = denied store.
Proof. apply (makedirs_tree s store []). Qed.

Lemma resolve_makedirs (s s' : string) store :
  resolve (makedirs s store).1 s' = resolve store s'.
Proof. unfold resolve, start. by rewrite (proj1 (cwd_makedirs s store)). Qed.

Lemma makedirs_reaches (s : string) store :
  (makedirs s store).2 = true ->
  is_dir (makedirs s store).1 (resolve store s) = true.
Proof.
  unfold makedirs, resolve.
  destruct (is_dir store (start store s)) eqn:Hstart; [|done].
  intros Hok. by apply make_along_reaches.
Qed.

(** *** The entries of a directory *)

Lemma child_of_Some dir p (x : string) :
  child_of dir p = Some x <-> p = dir ++ [x].
Proof.
  unfold child_of. split.
  - case_bool_decide as Hpre; [|done].
    destruct (drop (length dir) p) as [|y [|]] eqn:Hdrop; try done.
    intros [= ->]. by rewrite <- (take_drop (length dir) p), Hpre, Hdrop.
  - intros ->. rewrite take_app_length, bool_decide_eq_true_2 by done.
    by rewrite drop_app_length.
Qed.

Lemma lookup_entries dir store (x : string) :
  entries dir store !! x = tree store !! (dir ++ [x]).
Proof.
  unfold entries. generalize (tree store). clear store. revert x.
  intros x t. revert x.
  apply (map_fold_weak_ind
           (fun (acc : gmap string node) (t : gmap path node) =>
              forall x, acc !! x = t !! (dir ++ [x]))).
  - intros x. by rewrite !lookup_empty.
  - intros p n t0 acc Hp IH x.
    destruct (child_of dir p) as [y|] eqn:Hchild.
    + apply child_of_Some in Hchild as ->.
      destruct (decide (y = x)) as [->|Hne].
      * by rewrite !lookup_insert_eq.
      * rewrite !lookup_insert_ne; [apply IH| |done].
        intros Heq. apply app_inv_head in Heq. congruence.
    + rewrite lookup_insert_ne; [apply IH|].
      intros ->. by rewrite (proj2 (child_of_Some dir (dir ++ [x]) x)) in Hchild.
Qed.

(** *** Plain names *)

Lemma plain_relative name : plain name -> is_absolute name = false.
Proof.
  intros [Hone _]. destruct name as [|c rest]; [done|]. simpl.
  destruct (Ascii.eqb c slash) eqn:Hc; [|done].
  unfold components in Hone. simpl in Hone. rewrite Hc in Hone.
  by destruct (split_path rest).
Qed.

Lemma components_under (a s : string) :
  components a = [a] -> components (a +:+ "/" +:+ s) = a :: components s.
Proof.
  unfold components. induction a as [|c a IH]; intros Hone.
  - change ("" +:+ "/" +:+ s) with (String slash s).
    cbn [split_path]. change (Ascii.eqb slash slash) with true.
    by destruct (split_path s).
  - change (String c a +:+ "/" +:+ s) with (String c (a +:+ "/" +:+ s)).
    cbn [split_path] in *. destruct (split_path a) as [first others].
    destruct (Ascii.eqb c slash); [done|]. simpl in Hone.
    injection Hone as Hfirst Hothers. subst.
    injection (IH eq_refl) as Hfirst Hothers.
    destruct (split_path (a +:+ "/" +:+ s)) as [first' others'].
    simpl in *. by subst.
Qed.

Lemma components_dataset (s : string) :
  components ("dataset/" +:+ s) = "dataset" :: components s.
Proof. by apply (components_under "dataset" s). Qed.

Lemma join_dataset_plain name :
  plain name -> join DATASET_PATH name = "dataset/" +:+ name.
Proof. intros Hplain. unfold join. by rewrite (plain_relative name Hplain). Qed.

Lemma step_plain (at_ : path) name : plain name -> step at_ name = at_ ++ [name].
Proof.
  intros (_ & Hne & Hdot & Hdots). unfold step.
  rewrite bool_decide_eq_false_2 by (intros [?|?]; done).
  by rewrite bool_decide_eq_false_2.
Qed.

Lemma step_dataset (at_ : path) : step at_ "dataset" = at_ ++ ["dataset"].
Proof. apply step_plain. by repeat split. Qed.

Lemma user_dir_plain name store :
  plain name -> user_dir name store = cwd store ++ ["dataset"; name].
Proof.
  intros Hplain. unfold user_dir, resolve, start.
  rewrite (join_dataset_plain name Hplain), components_dataset.
  destruct Hplain as (Hone & Hrest). rewrite Hone. simpl.
  rewrite (step_plain _ name (conj Hone Hrest)), step_dataset.
  by rewrite <- app_assoc.
Qed.

(** For a plain name [os.makedirs] touches two paths at most: the dataset
    directory and the identity's. *)
Lemma makedirs_plain name store p :
  plain name ->
  p <> cwd store ++ ["dataset"] ->
  p <> cwd store ++ ["dataset"; name] ->
  tree (makedirs (join DATASET_PATH name) store).1 !! p = tree store !! p.
Proof.
  intros Hplain Hp1 Hp2. unfold makedirs, start.
  rewrite (join_dataset_plain name Hplain), components_dataset.
  destruct Hplain as (Hone & Hrest). rewrite Hone. simpl is_absolute.
  cbn [make_along].
  rewrite step_dataset, (step_plain _ name (conj Hone Hrest)), <- app_assoc.
  simpl app. unfold mkdir.
  repeat match goal with
         | |- context [if ?b then _ else _] => destruct b
         end; simpl; rewrite ?lookup_insert_ne by done; done.
Qed.

End dataset_paths.

Section dataset_runs.
Import Dataset.

Implicit Types (store : sample_store) (name file : string) (gray : image)
  (trace : list event) (feed : list read_result) (dir p : path)
  (acc : nat * sample_store * list event) (env : environment).

Lemma user_dir_cwd name store store' :
  cwd store' = cwd store -> user_dir name store' = user_dir name store.
Proof. unfold user_dir, resolve, start. by intros ->. Qed.

Lemma cascade_Some env detect :
  cascade env = Some detect -> cascade_file env = Loaded detect.
Proof. unfold cascade. destruct (cascade_file env); congruence. Qed.

(** What [create_dataset] comes to once the name is not empty,
    [os.makedirs] has returned, the classifier is built and the camera is
    open: the capture loop, and the release of the camera unless the loop
    raised. *)
Lemma create_dataset_loop env store feed :
  user_name env <> "" ->
  (makedirs (join DATASET_PATH (user_name env)) store).2 = true ->
  cascade_file env <> LoadRaises ->
  cameras env (cam_index env) = Some feed ->
  create_dataset env store =
    let udp := join DATASET_PATH (user_name env) in
    let res := capture (detector (cascade_file env)) (jpeg env) (display env)
                 (user_dir (user_name env) store) feed
                 (0%nat, (makedirs udp store).1,
                  [Makedirs udp; OpenCamera (cam_index env)]) in
    match res.1 with
    | Stopped why =>
        {| ended := Captured why res.2.1.1;
           trace := res.2.2 ++ [ReleaseCamera];
           store_after := res.2.1.2 |}
    | Raised =>
        {| ended := LoopRaised res.2.1.1;
           trace := res.2.2;
           store_after := res.2.1.2 |}
    end.
Proof.
  intros Hname Hmade Hload Hcam. unfold create_dataset.
  rewrite bool_decide_eq_false_2 by done.
  pose proof (resolve_makedirs (join DATASET_PATH (user_name env))
                (join DATASET_PATH (user_name env)) store) as Hdir.
  destruct (makedirs (join DATASET_PATH (user_name env)) store)
    as [store1 made]. simpl in Hmade, Hdir. subst made. cbn [negb fst].
  rewrite Hcam, Hdir. fold (user_dir (user_name env) store). cbv zeta.
  destruct (cascade_file env) as [| |detect]; [done| |]; simpl app;
    by destruct (capture _ _ _ _ _ _) as [[why|] [[count store2] trace3]].
Qed.

(** With a loaded cascade and a window to show the frames in, the loop
    raises nothing. *)
Lemma capture_stops detect encode dir feed : forall acc,
  exists why,
    (capture (detector (Loaded detect)) encode true dir feed acc).1
      = Stopped why.
Proof.
  induction feed as [|f feed IH]; intros acc; rewrite capture_unfold.
  - destruct (IMAGES_TO_CAPTURE <=? acc.1.1)%nat; by eexists.
  - destruct (IMAGES_TO_CAPTURE <=? acc.1.1)%nat; [by eexists|].
    destruct f as [|gray key]; [by eexists|]. cbn [detector negb].
    destruct (is_quit key); [by eexists | apply IH].
Qed.

Lemma save_one_face detect encode dir gray key acc :
  one_face detect (Frame gray key) = true ->
  exists r,
    detect gray = [r] /\
    save_faces encode dir gray (detect gray) acc =
      (S acc.1.1,
       imwrite dir (image_name (S acc.1.1)) (encode (crop gray r)) acc.1.2,
       acc.2 ++ [Imwrite dir (image_name (S acc.1.1))]).
Proof.
  unfold one_face, save_faces. destruct acc as [[count store] trace].
  destruct (detect gray) as [|r [|]]; try done. intros Hclear.
  exists r. split; [done|]. simpl. by rewrite Hclear.
Qed.

(** Frames of one face each bring the count to [IMAGES_TO_CAPTURE],
    unless 'q' is pressed before the last of them. *)
Lemma capture_reaches detect encode dir : forall (n : nat) feed acc,
  (acc.1.1 + n = IMAGES_TO_CAPTURE)%nat ->
  (n <= length feed)%nat ->
  forallb (one_face detect) (take n feed) = true ->
  forallb no_quit (take (n - 1) feed) = true ->
  (capture (detector (Loaded detect)) encode true dir feed acc).2.1.1
    = IMAGES_TO_CAPTURE.
Proof.
  induction n as [|n IH]; intros feed acc Hsum Hlen Hface Hkey;
    rewrite capture_unfold.
  - rewrite (proj2 (Nat.leb_le _ _)) by lia. simpl. lia.
  - rewrite (proj2 (Nat.leb_gt _ _)) by lia.
    destruct feed as [|f feed]; [simpl in Hlen; lia|].
    simpl in Hlen. rewrite firstn_cons in Hface. simpl in Hface.
    apply andb_prop in Hface as [Hf Hface].
    destruct f as [|gray key]; [done|]. cbn [detector negb]. cbv zeta.
    destruct (save_one_face detect encode dir gray key acc Hf)
      as (r & _ & ->).
    destruct (is_quit key) eqn:Hquit.
    + destruct n as [|n]; [simpl; lia|].
      simpl in Hkey. by rewrite Hquit in Hkey.
    + apply IH; [simpl; lia|lia|done|].
      destruct n as [|n]; [done|]. simpl in Hkey.
      apply andb_prop in Hkey as [_ Hkey].
      by replace (S n - 1)%nat with n by lia.
Qed.

Lemma capture_bounds detect encode shows dir (m : nat) feed : forall acc,
  (1 <= m)%nat ->
  Forall (fun f => (clear_in detect f <= m)%nat) feed ->
  (acc.1.1 < IMAGES_TO_CAPTURE + m)%nat ->
  let res := capture (detector (Loaded detect)) encode shows dir feed acc in
  (res.2.1.1 < IMAGES_TO_CAPTURE + m)%nat /\
  (res.1 = Stopped Reached -> (IMAGES_TO_CAPTURE <= res.2.1.1)%nat) /\
  (res.1 = Stopped FrameLost -> (res.2.1.1 < IMAGES_TO_CAPTURE)%nat).
Proof.
  intros acc Hm Hfeed. revert acc. cbv zeta.
  assert (forall acc (how : halt),
            (acc.1.1 < IMAGES_TO_CAPTURE + m)%nat ->
            (how = Stopped Reached -> (IMAGES_TO_CAPTURE <= acc.1.1)%nat) ->
            (how = Stopped FrameLost -> (acc.1.1 < IMAGES_TO_CAPTURE)%nat) ->
            ((how, acc).2.1.1 < IMAGES_TO_CAPTURE + m)%nat /\
            ((how, acc).1 = Stopped Reached ->
             (IMAGES_TO_CAPTURE <= (how, acc).2.1.1)%nat) /\
            ((how, acc).1 = Stopped FrameLost ->
             ((how, acc).2.1.1 < IMAGES_TO_CAPTURE)%nat))
    as Hstop by (by intros).
  induction Hfeed as [|f feed Hf Hfeed IH]; intros acc Hacc;
    rewrite capture_unfold;
    destruct (IMAGES_TO_CAPTURE <=? acc.1.1)%nat eqn:Hdone.
  - apply Nat.leb_le in Hdone. by apply Hstop.
  - apply Nat.leb_gt in Hdone. by apply Hstop.
  - apply Nat.leb_le in Hdone. by apply Hstop.
  - apply Nat.leb_gt in Hdone.
    destruct f as [|gray key]; [by apply Hstop|].
    cbn [detector]. cbv zeta. simpl in Hf.
    pose proof (save_faces_count encode dir gray (detect gray) acc) as Hcount.
    destruct (negb shows); [apply Hstop; [lia|done|done]|].
    destruct (is_quit key).
    + apply Hstop; [lia|done|done].
    + apply IH. lia.
Qed.

(** Where [cv2.imwrite] can write, the sample of a frame holds the
    encoding of the crop of that frame. *)
Lemma capture_contents detect encode dir : forall (n : nat) feed acc,
  (acc.1.1 + n = IMAGES_TO_CAPTURE)%nat ->
  (n <= length feed)%nat ->
  forallb (one_face detect) (take n feed) = true ->
  forallb no_quit (take (n - 1) feed) = true ->
  is_dir acc.1.2 dir = true ->
  forall (i : nat) gray key r,
    (i < n)%nat ->
    feed !! i = Some (Frame gray key) ->
    detect gray = [r] ->
    is_dir acc.1.2 (dir ++ [image_name (S (acc.1.1 + i))]) = false ->
    denied acc.1.2 (dir ++ [image_name (S (acc.1.1 + i))]) = false ->
    tree (capture (detector (Loaded detect)) encode true dir feed acc).2.1.2
      !! (dir ++ [image_name (S (acc.1.1 + i))])
      = Some (File (encode (crop gray r))).
Proof.
  induction n as [|n IH]; intros feed acc Hsum Hlen Hface Hkey Hdir
    i gray key r Hi Hframe Hdetect Hfree Hmay; [lia|].
  rewrite capture_unfold, (proj2 (Nat.leb_gt _ _)) by lia.
  destruct feed as [|f feed]; [done|].
  simpl in Hlen. rewrite firstn_cons in Hface. simpl in Hface.
  apply andb_prop in Hface as [Hf Hface].
  destruct f as [|gray0 key0]; [done|]. cbn [detector negb]. cbv zeta.
  pose proof (save_faces_extends encode dir gray0 (detect gray0) acc) as Hext.
  destruct (save_one_face detect encode dir gray0 key0 acc Hf)
    as (r0 & Hr0 & Hsaved). rewrite Hsaved in Hext |- *.
  destruct Hext as (_ & _ & [_ Hden] & Hdirs & _ & _ & _).
  simpl in Hden, Hdirs.
  destruct i as [|i].
  - injection Hframe as -> ->. rewrite Hdetect in Hr0. injection Hr0 as <-.
    rewrite Nat.add_0_r in *.
    assert (forall acc',
              extends dir
                (S acc.1.1,
                 imwrite dir (image_name (S acc.1.1)) (encode (crop gray r))
                   acc.1.2,
                 acc.2 ++ [Imwrite dir (image_name (S acc.1.1))]) acc' ->
              tree acc'.1.2 !! (dir ++ [image_name (S acc.1.1)])
                = Some (File (encode (crop gray r)))) as Hkeeps.
    { intros acc' (_ & _ & _ & _ & Htree & _ & _). simpl in Htree.
      destruct (Htree (dir ++ [image_name (S acc.1.1)]))
        as [->|(k & bytes & Hk & Heq & _)]; [by apply imwrite_done|].
      apply sample_path_inj in Heq. lia. }
    destruct (is_quit key).
    + exact (Hkeeps _ (extends_refl dir _)).
    + exact (Hkeeps _ (capture_extends _ _ _ dir feed _)).
  - simpl in Hframe. destruct (is_quit key0) eqn:Hquit.
    { destruct n as [|n]; [lia|]. simpl in Hkey. by rewrite Hquit in Hkey. }
    replace (S (acc.1.1 + S i)) with (S (S acc.1.1 + i)) in * by lia.
    apply (IH feed (S acc.1.1, _, _)) with (key := key); simpl;
      rewrite ?Hdirs, ?Hden; try done; try lia.
    destruct n as [|n]; [done|]. simpl in Hkey.
    apply andb_prop in Hkey as [_ Hkey].
    by replace (S n - 1)%nat with n by lia.
Qed.

End dataset_runs.

Section dataset_outcomes.
Import Dataset.

Implicit Types (store : sample_store) (name file : string) (gray : image)
  (trace : list event) (feed : list read_result) (dir p : path)
  (acc : nat * sample_store * list event) (env : environment).

(** An empty classifier raises at the first frame, before anything is
    written. *)
Lemma capture_blind encode shows dir feed acc :
  (capture (detector NotLoaded) encode shows dir feed acc).2 = acc.
Proof.
  rewrite capture_unfold. destruct (IMAGES_TO_CAPTURE <=? acc.1.1)%nat; [done|].
  by destruct feed as [|[|gray key] feed].
Qed.

(** The ways a run can go. *)
Lemma create_dataset_cases env store :
  let udp := join DATASET_PATH (user_name env) in
  let dir := user_dir (user_name env) store in
  let store1 := (makedirs udp store).1 in
  let r := create_dataset env store in
  (ended r = NameEmpty /\ trace r = [] /\ store_after r = store) \/
  (ended r = MakedirsRaised /\ trace r = [Makedirs udp] /\
   store_after r = store1) \/
  (ended r = CascadeError /\ trace r = [Makedirs udp] /\
   store_after r = store1) \/
  (ended r = CameraError /\
   trace r = [Makedirs udp; OpenCamera (cam_index env)] /\
   store_after r = store1) \/
  (exists how count,
     ended r = match how with
               | Stopped why => Captured why count
               | Raised => LoopRaised count
               end /\
     trace r = ([Makedirs udp; OpenCamera (cam_index env)]
                ++ writes dir 0 count)
               ++ match how with
                  | Stopped _ => [ReleaseCamera]
                  | Raised => []
                  end /\
     extends dir
       (0%nat, store1, [Makedirs udp; OpenCamera (cam_index env)])
       (count, store_after r,
        [Makedirs udp; OpenCamera (cam_index env)] ++ writes dir 0 count) /\
     (how = Raised ->
      (cascade_file env = NotLoaded /\ count = 0%nat) \/ display env = false)).
Proof.
  intros udp dir store1 r.
  destruct (decide (user_name env = "")) as [Hempty|Hname].
  { left. subst r. unfold create_dataset. by rewrite bool_decide_eq_true_2. }
  right.
  destruct (makedirs udp store).2 eqn:Hmade.
  2: { left. subst r udp store1. unfold create_dataset.
       rewrite bool_decide_eq_false_2 by done.
       destruct (makedirs _ store) as [s made]. simpl in Hmade. by subst. }
  right.
  assert (cascade_file env = LoadRaises \/ cascade_file env <> LoadRaises)
    as [Hraises|Hload] by (destruct (cascade_file env); auto).
  { left. subst r udp store1. unfold create_dataset.
    rewrite bool_decide_eq_false_2 by done.
    destruct (makedirs _ store) as [s made]. simpl in Hmade. subst.
    by rewrite Hraises. }
  right.
  destruct (cameras env (cam_index env)) as [feed|] eqn:Hcam.
  2: { left. subst r udp store1. unfold create_dataset.
       rewrite bool_decide_eq_false_2 by done.
       destruct (makedirs _ store) as [s made]. simpl in Hmade. subst.
       rewrite Hcam. by destruct (cascade_file env). }
  right. subst r.
  rewrite (create_dataset_loop env store feed Hname Hmade Hload Hcam).
  cbv zeta. fold udp dir store1.
  pose proof (capture_extends (detector (cascade_file env)) (jpeg env)
                (display env) dir feed
                (0%nat, store1, [Makedirs udp; OpenCamera (cam_index env)]))
    as Hext.
  assert ((capture (detector (cascade_file env)) (jpeg env) (display env)
             dir feed
             (0%nat, store1, [Makedirs udp; OpenCamera (cam_index env)])).1
          = Raised ->
          (cascade_file env = NotLoaded /\
           (capture (detector (cascade_file env)) (jpeg env) (display env)
              dir feed
              (0%nat, store1,
               [Makedirs udp; OpenCamera (cam_index env)])).2.1.1 = 0%nat) \/
          display env = false) as Hraised.
  { destruct (cascade_file env) as [| |detect] eqn:Hfile; [done| |].
    - intros _. left. by rewrite capture_blind.
    - destruct (display env); [|by right]. intros Hr.
      destruct (capture_stops detect (jpeg env) dir feed
                  (0%nat, store1, [Makedirs udp; OpenCamera (cam_index env)]))
        as [why Hwhy].
      congruence. }
  destruct (capture _ _ _ _ _ _) as [how [[count store2] trace2]].
  simpl in Hraised. exists how, count.
  assert (trace2 = [Makedirs udp; OpenCamera (cam_index env)]
                   ++ writes dir 0 count) as -> by apply Hext.
  destruct how as [why|]; simpl; by rewrite ?app_nil_r.
Qed.

(** A directory that lists exactly image_1.jpg .. image_<count>.jpg has
    [count] entries. *)
Lemma samples_listing dir store (count : nat) :
  (forall x, is_Some (tree store !! (dir ++ [x])) <->
             exists k, (1 <= k <= count)%nat /\ x = image_name k) ->
  size (entries dir store) = count.
Proof.
  intros Hlist. rewrite <- size_dom.
  replace (dom (entries dir store))
    with (list_to_set (image_name <$> seq 1 count) : gset string).
  - rewrite size_list_to_set, length_fmap, length_seq; [done|].
    apply NoDup_fmap_2; [|apply NoDup_seq]. intros a b. apply image_name_inj.
  - apply set_eq. intros x.
    rewrite elem_of_list_to_set, elem_of_dom, lookup_entries, Hlist,
      list_elem_of_fmap.
    split.
    + intros (k & -> & Hk). apply elem_of_seq in Hk. exists k. split; [lia|done].
    + intros (k & Hk & ->). exists k. split; [done|]. apply elem_of_seq. lia.
Qed.

Lemma is_dir_entry store dir (x : string) :
  is_dir store (dir ++ [x]) =
    match tree store !! (dir ++ [x]) with Some Folder => true | _ => false end.
Proof.
  unfold is_dir. rewrite bool_decide_eq_false_2; [done|].
  by destruct dir.
Qed.

Lemma partition_lookup name store store' (x : string) :
  cwd store' = cwd store ->
  partition name store' !! x = tree store' !! (user_dir name store ++ [x]).
Proof.
  intros Hcwd. unfold partition.
  by rewrite lookup_entries, (user_dir_cwd name store store' Hcwd).
Qed.

End dataset_outcomes.

Section dataset_claims.
Import Dataset Fixtures.

(** C8. An empty identity name ends the enrollment at once with
    "Name cannot be empty." and without any effect: no directory is made,
    no camera is opened, no sample is written, and the store is as it
    was. *)
Theorem empty_name_no_effects (env : environment) (store : sample_store) :
  user_name env = "" ->
  let r := create_dataset env store in
  ended r = NameEmpty /\ trace r = [] /\ store_after r = store.
Proof.
  intros Hname. unfold create_dataset. by rewrite Hname.
Qed.

Lemma empty_name_no_effects_witness :
  let r := create_dataset (enroll_env "" feed_exact) store_stale in
  ended r = NameEmpty /\ trace r = [] /\ store_after r = store_stale.
Proof.
  exact (empty_name_no_effects (enroll_env "" feed_exact) store_stale eq_refl).
Defined.

(** C7, as stated, fails in each of these runs, all on a camera whose
    frames show exactly one clear face each.  Pressing 'q' while the first
    of sixty-one frames is shown ends the enrollment with one sample.  A
    directory that already held a file of another name ends with fifty-one
    files.  The name "a/b" makes two directories below the dataset
    directory, dataset/a and dataset/a/b, and none named after the
    identity.  A file lying where the directory would go makes
    [os.makedirs] raise, and nothing is stored.  And where the system lets
    nothing be written (a read-only file system), the run still reports
    fifty images while the directory stays empty. *)
Lemma enroll_misses_target :
  (let r := create_dataset (enroll_env "alice" feed_quit) ∅ in
   (IMAGES_TO_CAPTURE <= length feed_quit)%nat /\
   forallb (one_face per_pixel) feed_quit = true /\
   ended r = Captured Interrupted 1 /\
   sample_count "alice" (store_after r) = 1%nat) /\
  (let r := create_dataset (enroll_env "alice" feed_exact) store_stale in
   (IMAGES_TO_CAPTURE <= length feed_exact)%nat /\
   forallb (one_face per_pixel) feed_exact = true /\
   forallb no_quit feed_exact = true /\
   ended r = Captured Reached 50 /\
   sample_count "alice" (store_after r) = 51%nat) /\
  (let r := create_dataset (enroll_env "a/b" feed_exact) ∅ in
   ended r = Captured Reached 50 /\
   tree (store_after r) !! ["dataset"; "a"] = Some Folder /\
   tree (store_after r) !! ["dataset"; "a"; "b"] = Some Folder /\
   entries ["dataset"] (store_after r) !! "a/b" = None /\
   size (entries ["dataset"] (store_after r)) = 1%nat /\
   size (entries ["dataset"; "a"] (store_after r)) = 1%nat) /\
  (let r := create_dataset (enroll_env "alice" feed_exact) store_blocked in
   ended r = MakedirsRaised /\
   is_dir (store_after r) (user_dir "alice" store_blocked) = false /\
   sample_count "alice" (store_after r) = 0%nat) /\
  (let r := create_dataset (enroll_env "alice" feed_exact) store_readonly in
   ended r = Captured Reached 50 /\
   is_dir (store_after r) (user_dir "alice" store_readonly) = true /\
   sample_count "alice" (store_after r) = 0%nat).
Proof. vm_compute. repeat split; lia. Qed.

(** C7, amended.  Let the identity name be one component of a path (no
    "/" in it, and not "", "." or ".."), let [os.makedirs] return, the
    cascade be loaded, a window be there to show the frames in, and the
    camera open.  If its first [IMAGES_TO_CAPTURE] reads each give a frame
    with exactly one detected region of non-empty crop, 'q' is not pressed
    during the first [IMAGES_TO_CAPTURE - 1] of them, the identity's
    directory holds beforehand nothing but files named
    image_1.jpg .. image_50.jpg (in particular if it does not exist), and
    the system lets these be written, then the enrollment ends with a
    count of [IMAGES_TO_CAPTURE]; the identity's directory is
    dataset/<name> below the working directory; it exists and holds
    exactly [IMAGES_TO_CAPTURE] entries, the files
    image_1.jpg .. image_50.jpg; the working directory is what it was; no
    path other than the dataset directory, the identity's directory and
    these files is created or changed; and no directory other than the
    first two is made. *)
Theorem enroll_reaches_target (env : environment) (store : sample_store)
    (detect : image -> list region) (feed : list read_result) :
  plain (user_name env) ->
  (makedirs (join DATASET_PATH (user_name env)) store).2 = true ->
  cascade env = Some detect ->
  display env = true ->
  cameras env (cam_index env) = Some feed ->
  (IMAGES_TO_CAPTURE <= length feed)%nat ->
  forallb (one_face detect) (take IMAGES_TO_CAPTURE feed) = true ->
  forallb no_quit (take (IMAGES_TO_CAPTURE - 1) feed) = true ->
  (forall file n, partition (user_name env) store !! file = Some n ->
     exists k bytes,
       (1 <= k <= IMAGES_TO_CAPTURE)%nat /\ file = image_name k /\
       n = File bytes) ->
  (forall k, (1 <= k <= IMAGES_TO_CAPTURE)%nat ->
     denied store (user_dir (user_name env) store ++ [image_name k]) = false) ->
  let r := create_dataset env store in
  let dir := user_dir (user_name env) store in
  (exists why, ended r = Captured why IMAGES_TO_CAPTURE) /\
  dir = cwd store ++ ["dataset"; user_name env] /\
  is_dir (store_after r) dir = true /\
  sample_count (user_name env) (store_after r) = IMAGES_TO_CAPTURE /\
  (forall file, is_Some (partition (user_name env) (store_after r) !! file) <->
     exists k, (1 <= k <= IMAGES_TO_CAPTURE)%nat /\ file = image_name k) /\
  (forall k, (1 <= k <= IMAGES_TO_CAPTURE)%nat ->
     exists bytes,
       partition (user_name env) (store_after r) !! image_name k
         = Some (File bytes)) /\
  cwd (store_after r) = cwd store /\
  (forall p,
     p <> cwd store ++ ["dataset"] -> p <> dir ->
     (forall k, p <> dir ++ [image_name k]) ->
     tree (store_after r) !! p = tree store !! p) /\
  (forall p, is_dir (store_after r) p = true ->
     is_dir store p = true \/ p = cwd store ++ ["dataset"] \/ p = dir).
Proof.
  intros Hplain Hmade Hcascade Hshow Hcam Hlen Hface Hkey Hold Hmay r dir.
  subst r.
  assert (user_name env <> "") as Hname by apply Hplain.
  apply cascade_Some in Hcascade.
  rewrite (create_dataset_loop env store feed Hname Hmade) by congruence.
  cbv zeta. rewrite Hcascade, Hshow. fold dir.
  set (udp := join DATASET_PATH (user_name env)) in *.
  set (store1 := (makedirs udp store).1).
  set (acc0 := (0%nat, store1, [Makedirs udp; OpenCamera (cam_index env)])).
  destruct (capture_stops detect (jpeg env) dir feed acc0) as [why Hwhy].
  pose proof (capture_reaches detect (jpeg env) dir IMAGES_TO_CAPTURE feed
                acc0 eq_refl Hlen Hface Hkey) as Hcount.
  pose proof (capture_extends (detector (Loaded detect)) (jpeg env) true dir
                feed acc0) as Hext.
  destruct (capture _ _ _ _ _ _) as [how [[count store'] trace']].
  simpl in Hwhy, Hcount, Hext. subst how count. cbn [fst snd ended store_after].
  destruct Hext as (_ & _ & [Hcwd Hden] & Hdirs & Htree & Hnew & _).
  simpl in Hcwd, Hden, Hdirs, Htree, Hnew.
  (* what os.makedirs left *)
  destruct (cwd_makedirs udp store) as [Hcwd1 Hden1]. fold store1 in Hcwd1, Hden1.
  assert (dir = cwd store ++ ["dataset"; user_name env]) as Hdir
    by apply (user_dir_plain _ _ Hplain).
  assert (is_dir store1 dir = true) as Hdir1
    by apply (makedirs_reaches udp store Hmade).
  assert (forall p : path, p <> cwd store ++ ["dataset"] -> p <> dir ->
            tree store1 !! p = tree store !! p) as Hsame1.
  { intros p Hp1 Hp2. apply (makedirs_plain _ _ _ Hplain Hp1). congruence. }
  assert (forall x : string, tree store1 !! (dir ++ [x]) = tree store !! (dir ++ [x]))
    as Hentry1.
  { intros x. apply Hsame1; rewrite Hdir; intros Heq;
      apply (f_equal length) in Heq; rewrite !length_app in Heq;
      simpl in Heq; lia. }
  assert (cwd store' = cwd store) as Hcwd' by congruence.
  (* the samples *)
  assert (forall k, (1 <= k <= IMAGES_TO_CAPTURE)%nat ->
            exists bytes, tree store' !! (dir ++ [image_name k]) = Some (File bytes))
    as Hsamples.
  { intros k Hk. apply Hnew; [lia|done| |].
    - rewrite is_dir_entry, Hentry1.
      destruct (tree store !! (dir ++ [image_name k])) as [n|] eqn:Hn; [|done].
      destruct (Hold (image_name k) n) as (_ & bytes & _ & _ & ->); [|done].
      by rewrite (partition_lookup _ store store).
    - rewrite Hden1. by apply Hmay. }
  assert (forall x, is_Some (tree store' !! (dir ++ [x])) <->
            exists k, (1 <= k <= IMAGES_TO_CAPTURE)%nat /\ x = image_name k)
    as Hlist.
  { intros x. split.
    - intros [n Hn].
      destruct (Htree (dir ++ [x])) as [Heq|(k & bytes & Hk & Heq & _)].
      + rewrite Heq, Hentry1 in Hn.
        destruct (Hold x n) as (k & _ & Hk & -> & _); [|by eauto].
        by rewrite (partition_lookup _ store store).
      + apply app_inv_head in Heq. injection Heq as ->.
        exists k. split; [lia|done].
    - intros (k & Hk & ->). destruct (Hsamples k Hk) as [bytes ->]. eauto. }
  split; [by eexists|]. split; [done|]. split; [by rewrite Hdirs|].
  split; [|split; [|split; [|split; [|split]]]].
  - unfold sample_count, partition.
    rewrite (user_dir_cwd _ store store' Hcwd'). by apply samples_listing.
  - intros file. rewrite (partition_lookup _ store store' _ Hcwd'). apply Hlist.
  - intros k Hk. rewrite (partition_lookup _ store store' _ Hcwd').
    by apply Hsamples.
  - done.
  - intros p Hp1 Hp2 Hp3.
    destruct (Htree p) as [->|(k & _ & _ & -> & _)]; [by apply Hsame1|].
    by destruct (Hp3 k).
  - intros p Hp. rewrite Hdirs in Hp.
    destruct (decide (p = cwd store ++ ["dataset"])) as [|Hp1]; [by auto|].
    destruct (decide (p = dir)) as [|Hp2]; [by auto|]. left.
    unfold is_dir in *. by rewrite <- (Hsame1 p Hp1 Hp2).
Qed.

Lemma enroll_reaches_target_witness :
  sample_count "alice" (store_after (create_dataset (enroll_env "alice" feed_exact) ∅))
    = IMAGES_TO_CAPTURE.
Proof.
  refine (proj1 (proj2 (proj2 (proj2
    (enroll_reaches_target (enroll_env "alice" feed_exact) ∅ per_pixel feed_exact
       _ eq_refl eq_refl eq_refl eq_refl _ eq_refl eq_refl _ _))))).
  - by repeat split.
  - vm_compute. lia.
  - intros file n Hn. vm_compute in Hn. discriminate Hn.
  - reflexivity.
Defined.

(** C9. The stop condition is only tested between frames.  The loop over
    the faces of one frame raises the count by the number of faces with a
    non-empty crop, whatever the count already is, and so can pass
    [IMAGES_TO_CAPTURE]: after forty-nine frames of one face, a frame of
    two faces ends the enrollment with a count of 51 and 51 stored
    samples. *)
Theorem capture_can_overshoot :
  (forall jpeg name gray faces (count : nat) store trace,
     (save_faces jpeg name gray faces (count, store, trace)).1.1 =
       (count + length (clear_faces gray faces))%nat) /\
  (let r := create_dataset (enroll_env "alice" feed_overshoot) ∅ in
   ended r = Captured Reached 51 /\
   sample_count "alice" (store_after r) = 51%nat /\
   (IMAGES_TO_CAPTURE < sample_count "alice" (store_after r))%nat).
Proof.
  split.
  - intros jpeg name gray faces count store trace.
    apply (save_faces_count jpeg name gray faces (count, store, trace)).
  - vm_compute. repeat split; lia.
Qed.

End dataset_claims.

(** * Further properties *)

(** ** Cropping *)
Section crop_facts.

Lemma py_slice_inside {A} (l : list A) (a b : Z) :
  0 <= a <= b -> b <= Z.of_nat (length l) ->
  py_slice l a b = take (Z.to_nat (b - a)) (drop (Z.to_nat a) l).
Proof.
  intros Hab Hb. unfold py_slice, slice_bound.
  replace (a <? 0) with false by (symmetry; apply Z.ltb_ge; lia).
  replace (b <? 0) with false by (symmetry; apply Z.ltb_ge; lia).
  by rewrite !Z.min_l by lia.
Qed.

(** X1. Cropping a region that lies inside a rectangular frame
    ([gray[y:y+h, x:x+w]] with [0 <= x], [0 <= y], [0 <= w], [0 <= h],
    [x + w] at most the width and [y + h] at most the height) gives
    [h] rows of [w] pixels, so [w * h] pixels in all, and the pixel at row
    [i], column [j] of the crop is the pixel at row [y + i], column
    [x + j] of the frame. *)
Theorem crop_inside (gray : image) (x y w h : Z) (width : nat) :
  Forall (fun row => length row = width) gray ->
  0 <= x -> 0 <= y -> 0 <= w -> 0 <= h ->
  x + w <= Z.of_nat width ->
  y + h <= Z.of_nat (length gray) ->
  length (crop gray (x, y, w, h)) = Z.to_nat h /\
  Forall (fun row => length row = Z.to_nat w) (crop gray (x, y, w, h)) /\
  size_of (crop gray (x, y, w, h)) = w * h /\
  (forall i j : nat, (i < Z.to_nat h)%nat -> (j < Z.to_nat w)%nat ->
     crop gray (x, y, w, h) !! i ≫= (fun row => row !! j) =
     gray !! (Z.to_nat y + i)%nat ≫= (fun row => row !! (Z.to_nat x + j)%nat)).
Proof.
  intros Hrect Hx Hy Hw Hh Hxw Hyh. unfold crop.
  rewrite (py_slice_inside gray y (y + h)) by lia.
  replace (y + h - y) with h by lia.
  set (rows := take (Z.to_nat h) (drop (Z.to_nat y) gray)).
  assert (Forall (fun row => length row = width) rows) as Hrows.
  { unfold rows. by apply Forall_take, Forall_drop. }
  assert (length rows = Z.to_nat h) as Hlen.
  { unfold rows. rewrite length_take, length_drop. lia. }
  assert (Forall (fun row => length row = Z.to_nat w)
            ((fun row => py_slice row x (x + w)) <$> rows)) as Hcols.
  { apply Forall_fmap. eapply Forall_impl; [exact Hrows|].
    intros row Hrow. simpl in Hrow |- *.
    rewrite py_slice_inside by lia. replace (x + w - x) with w by lia.
    rewrite length_take, length_drop. lia. }
  split; [by rewrite length_fmap|]. split; [done|]. split.
  - unfold size_of. rewrite (sum_list_fmap_same (Z.to_nat w)) by done.
    rewrite length_fmap, Hlen. lia.
  - intros i j Hi Hj. unfold image. rewrite list_lookup_fmap.
    unfold rows. rewrite lookup_take_lt, lookup_drop by done.
    destruct (_ !! (Z.to_nat y + i)%nat) as [row|] eqn:Hrow; [|done].
    simpl. assert (length row = width) as Hrowlen.
    { exact (Forall_lookup_1 _ _ _ _ Hrect Hrow). }
    rewrite py_slice_inside by lia. replace (x + w - x) with w by lia.
    by rewrite lookup_take_lt, lookup_drop.
Qed.

Lemma crop_inside_witness :
  crop [[1; 2; 3]; [4; 5; 6]; [7; 8; 9]] (1, 1, 2, 2) = [[5; 6]; [8; 9]] /\
  size_of (crop [[1; 2; 3]; [4; 5; 6]; [7; 8; 9]] (1, 1, 2, 2)) = 4.
Proof.
  split; [reflexivity|].
  refine (proj1 (proj2 (proj2
    (crop_inside [[1; 2; 3]; [4; 5; 6]; [7; 8; 9]] 1 1 2 2 3 _ _ _ _ _ _ _)))).
  - repeat constructor.
  - lia.
  - lia.
  - lia.
  - lia.
  - simpl. lia.
  - simpl. lia.
Defined.

End crop_facts.

(** ** The login loop *)
Section login_more.
Import Login Fixtures.

Implicit Types (app : FaceLoginApp) (gray : image) (r : region)
  (st : frame_locals) (g : gui).

Lemma process_face_overlay app gray st r :
  (process_face app gray st r).2 = overlay_for r (verdict app gray r).
Proof.
  rewrite verdict_score. unfold process_face.
  destruct (recognizer app (crop gray r)) as [id_num confidence]; simpl.
  by destruct (score_below confidence CONF_THRESHOLD).
Qed.

Lemma process_faces_drawn app gray faces : forall st drawn,
  (process_faces app gray st drawn faces).2 =
    drawn ++ ((fun r => overlay_for r (verdict app gray r)) <$> faces).
Proof.
  induction faces as [|r rest IH]; intros st drawn; simpl.
  - by rewrite app_nil_r.
  - pose proof (process_face_overlay app gray st r) as Ho.
    destruct (process_face app gray st r) as [st' o]; simpl in Ho.
    rewrite IH, Ho. by rewrite <- app_assoc.
Qed.

(** X2. For every frame that is read, exactly one overlay is drawn per
    detected region, in detection order and on that region: green
    "Logged In: <name>" for an accepted region, red "Login Failed" for a
    rejected one. *)
Theorem one_overlay_per_region app g gray :
  cap_working app = true ->
  video (update_frame app g (Some gray)) =
    (fun r => overlay_for r (verdict app gray r)) <$> face_detector app gray /\
  ov_rect <$> video (update_frame app g (Some gray)) = face_detector app gray.
Proof.
  intros Hcap.
  assert (video (update_frame app g (Some gray)) =
            (fun r => overlay_for r (verdict app gray r)) <$> face_detector app gray)
    as Hvideo.
  { unfold update_frame. rewrite Hcap. simpl.
    pose proof (process_faces_drawn app gray (face_detector app gray)
                  initial_locals []) as Hd.
    by destruct (process_faces app gray initial_locals [] (face_detector app gray)). }
  split; [done|]. rewrite Hvideo, <- list_fmap_compose.
  rewrite <- (list_fmap_id (face_detector app gray)) at 2.
  apply list_fmap_ext. intros i r _. simpl. by destruct (verdict app gray r).
Qed.

Lemma one_overlay_per_region_witness :
  ov_text <$> video (update_frame app3 gui0 (Some gray3)) =
    ["Login Failed"; "Logged In: Alice"; "Logged In: Bob"] /\
  ov_rect <$> video (update_frame app3 gui0 (Some gray3)) = three_faces.
Proof.
  destruct (one_overlay_per_region app3 gui0 gray3 eq_refl) as [Hvideo Hrect].
  split; [by rewrite Hvideo | exact Hrect].
Defined.

(** Where the last acceptance of a list of verdicts is, if there is one. *)
Lemma last_accept_split (vs : list decision) :
  Forall (fun v => v = Reject) vs \/
  exists pre name post,
    vs = pre ++ Accept name :: post /\ Forall (fun v => v = Reject) post.
Proof.
  induction vs as [|v vs [Hall|(pre & name & post & -> & Hpost)]].
  - by left.
  - destruct v as [name|].
    + right. by exists [], name, vs.
    + left. by constructor.
  - right. by exists (v :: pre), name, post.
Qed.

(** X3. A read frame shows a green status exactly when at least one
    detected region is accepted, and the status then welcomes the identity
    of an accepted region of that frame; nobody is welcomed unless some
    region scored below the threshold. *)
Theorem welcome_iff_some_accepted app g gray :
  cap_working app = true ->
  (status_fg (update_frame app g (Some gray)) = "green" <->
   exists r name, r ∈ face_detector app gray /\ verdict app gray r = Accept name) /\
  (status_fg (update_frame app g (Some gray)) = "green" ->
   exists r name,
     r ∈ face_detector app gray /\ verdict app gray r = Accept name /\
     status_var (update_frame app g (Some gray)) = "Welcome, " +:+ name +:+ "!").
Proof.
  intros Hcap.
  destruct (update_frame_status app g gray Hcap) as [-> ->].
  assert (forall name, Accept name ∈ verdicts app gray ->
            exists r, r ∈ face_detector app gray /\ verdict app gray r = Accept name)
    as Hfrom.
  { intros name Hin. apply list_elem_of_fmap in Hin as (r & Hr & Hin). eauto. }
  destruct (last_accept_split (verdicts app gray))
    as [Hall|(pre & name & post & Hvs & Hpost)].
  - rewrite (absorb_rejects_fresh initial_locals _ eq_refl Hall).
    assert (forall r name, r ∈ face_detector app gray ->
              verdict app gray r <> Accept name) as Hnone.
    { intros r name Hr Hacc.
      assert (verdict app gray r ∈ verdicts app gray) as Hin
        by (by apply list_elem_of_fmap_2).
      rewrite Forall_forall in Hall. apply Hall in Hin. congruence. }
    split; [split|].
    + by destruct (verdicts app gray).
    + intros (r & name & Hr & Hacc). by destruct (Hnone r name Hr).
    + by destruct (verdicts app gray).
  - rewrite Hvs, foldl_app. simpl.
    rewrite (absorb_rejects_logged (welcome name)) by (done || by eexists).
    destruct (Hfrom name) as (r & Hr & Hacc).
    { rewrite Hvs. apply elem_of_app. right. apply list_elem_of_here. }
    split; [split|]; eauto 6.
Qed.

Lemma welcome_iff_some_accepted_witness :
  exists r name,
    r ∈ three_faces /\ verdict app3 gray3 r = Accept name /\
    status_var (update_frame app3 gui0 (Some gray3)) = "Welcome, " +:+ name +:+ "!".
Proof.
  exact (proj2 (welcome_iff_some_accepted app3 gui0 gray3 eq_refl) eq_refl).
Defined.

Lemma update_frame_rescheduled app g read :
  cap_working app = true -> rescheduled (update_frame app g read) = true.
Proof.
  intros Hcap. unfold update_frame. rewrite Hcap. simpl.
  destruct read as [gray|]; [|done].
  by destruct (process_faces app gray initial_locals [] (face_detector app gray)).
Qed.

(** X4. The status has no memory: with a working camera, after any
    sequence of reads the status is the one of the last frame that was
    read, whatever was shown before it; failed reads are skipped without
    touching the status, and the loop keeps rescheduling itself. *)
Theorem status_of_last_frame app g g0 (reads : list (option image)) :
  cap_working app = true ->
  match last (omap id reads) with
  | None =>
      status_var (mainloop app g reads) = status_var g /\
      status_fg (mainloop app g reads) = status_fg g
  | Some gray =>
      status_var (mainloop app g reads) = status_var (update_frame app g0 (Some gray)) /\
      status_fg (mainloop app g reads) = status_fg (update_frame app g0 (Some gray))
  end /\
  (reads <> [] -> rescheduled (mainloop app g reads) = true).
Proof.
  intros Hcap. revert g.
  induction reads as [|read rest IH]; intros g; [done|].
  cbn [mainloop]. rewrite (update_frame_rescheduled app g read Hcap).
  destruct (IH (update_frame app g read)) as [Hstatus Hloop].
  split.
  - destruct read as [gray|].
    + change (omap id (Some gray :: rest)) with (gray :: omap id rest).
      rewrite last_cons.
      destruct (last (omap id rest)) as [gray'|]; [done|].
      destruct Hstatus as [-> ->].
      destruct (update_frame_status app g gray Hcap) as [-> ->].
      by destruct (update_frame_status app g0 gray Hcap) as [-> ->].
    + change (omap id (None :: rest)) with (omap id rest).
      destruct (last (omap id rest)) as [gray'|]; [done|].
      destruct Hstatus as [-> ->].
      unfold update_frame. by rewrite Hcap.
  - intros _. destruct rest as [|read' rest]; [|by apply Hloop].
    by apply update_frame_rescheduled.
Qed.

Lemma status_of_last_frame_witness :
  status_var (mainloop app3 gui0 [Some [[10; 10; 10]]; None; Some gray3; None])
    = "Welcome, Bob!".
Proof.
  exact (proj1 (proj1 (status_of_last_frame app3 gui0 gui0
                         [Some [[10; 10; 10]]; None; Some gray3; None] eq_refl))).
Defined.

(** X5. When the camera does not open, [open_camera] shows
    "Error: Could not open camera <index>" in red and the loop never
    starts: the first call of [update_frame] returns without reading,
    drawing or rescheduling, so the error stays whatever the camera would
    have delivered. *)
Theorem camera_failure_is_final app (cam_index : Z) g
    (read : option image) (reads : list (option image)) :
  let stuck := mainloop (open_camera app cam_index false g).1
                 (open_camera app cam_index false g).2 (read :: reads) in
  status_var stuck = "Error: Could not open camera " +:+ pretty cam_index /\
  status_fg stuck = "red" /\
  video stuck = video g /\
  rescheduled stuck = false.
Proof. done. Qed.

(** X18. Acceptance does not need a registered label: when the only
    detected region scores below the threshold with a label that the
    reverse registry does not hold, the frame still shows a green welcome,
    for the name "Unknown". *)
Theorem unregistered_label_is_welcomed app g gray r (id_num : Z) (score : float) :
  cap_working app = true ->
  face_detector app gray = [r] ->
  recognizer app (crop gray r) = (id_num, score) ->
  (score <? 65)%float = true ->
  id_to_name app !! id_num = None ->
  status_var (update_frame app g (Some gray)) = "Welcome, Unknown!" /\
  status_fg (update_frame app g (Some gray)) = "green" /\
  ov_text <$> video (update_frame app g (Some gray)) = ["Logged In: Unknown"].
Proof.
  intros Hcap Hfaces Hpredict Hscore Hmissing.
  assert (verdict app gray r = Accept "Unknown") as Hverdict.
  { rewrite verdict_score, Hpredict. simpl.
    by rewrite threshold_is_65, Hscore, Hmissing. }
  destruct (update_frame_status app g gray Hcap) as [-> ->].
  unfold verdicts. rewrite Hfaces. simpl. rewrite Hverdict. simpl.
  split; [done|]. split; [done|].
  unfold update_frame. rewrite Hcap, Hfaces. simpl.
  pose proof (process_face_overlay app gray initial_locals r) as Ho.
  destruct (process_face app gray initial_locals r) as [st o]. simpl in Ho |- *.
  by rewrite Ho, Hverdict.
Qed.

Lemma unregistered_label_is_welcomed_witness :
  status_var (update_frame stranger_app gui0 (Some [[20]])) = "Welcome, Unknown!".
Proof.
  exact (proj1 (unregistered_label_is_welcomed stranger_app gui0 [[20]]
                  (0, 0, 1, 1) 0 30%float eq_refl eq_refl eq_refl eq_refl eq_refl)).
Defined.

End login_more.

(** ** The reverse registry *)
Section registry_more.
Import Recog Fixtures.

Implicit Types (m : gmap string Z).

Lemma reverse_mapping_entries m :
  (forall v k, Login.reverse_mapping m !! v = Some k -> m !! k = Some v) /\
  (forall k v, m !! k = Some v -> is_Some (Login.reverse_mapping m !! v)).
Proof.
  unfold Login.reverse_mapping.
  apply (map_fold_weak_ind
           (fun (r : gmap Z string) (m0 : gmap string Z) =>
              (forall v k, r !! v = Some k -> m0 !! k = Some v) /\
              (forall k v, m0 !! k = Some v -> is_Some (r !! v)))).
  - split; intros ? ?; by rewrite lookup_empty.
  - intros i x m0 r Hi [Hback Hforth]. split.
    + intros v k. rewrite lookup_insert. destruct (decide (x = v)) as [->|Hne].
      * intros [= ->]. apply lookup_insert_eq.
      * intros Hr. apply Hback in Hr.
        rewrite lookup_insert_ne; [done|]. congruence.
    + intros k v. rewrite !lookup_insert.
      destruct (decide (i = k)) as [->|Hne].
      * intros [= ->]. rewrite decide_True by done. eauto.
      * intros Hkv. destruct (decide (x = v)); eauto.
Qed.

(** X6. The reverse registry of [load_models] only holds pairs of the
    loaded mapping (label [v] resolves to a name whose label is [v]), and
    every label of the mapping resolves to some name; when no two names
    share a label it is exactly the inverse of the mapping. *)
Theorem reverse_mapping_inverse m :
  (forall v k, Login.reverse_mapping m !! v = Some k -> m !! k = Some v) /\
  (forall k v, m !! k = Some v -> is_Some (Login.reverse_mapping m !! v)) /\
  ((forall a b v, m !! a = Some v -> m !! b = Some v -> a = b) ->
   forall v k, Login.reverse_mapping m !! v = Some k <-> m !! k = Some v).
Proof.
  destruct (reverse_mapping_entries m) as [Hback Hforth].
  split; [done|]. split; [done|].
  intros Hinj v k. split; [apply Hback|].
  intros Hk. destruct (Hforth k v Hk) as [k' Hk'].
  rewrite Hk'. f_equal. eapply Hinj; [|exact Hk]. by apply Hback.
Qed.

Lemma reverse_mapping_inverse_witness :
  Login.reverse_mapping alice_bob !! 1 = Some "Bob".
Proof.
  apply (proj2 (proj2 (reverse_mapping_inverse alice_bob))); [|reflexivity].
  intros a b v Ha Hb.
  unfold alice_bob in Ha, Hb. rewrite !lookup_insert in Ha, Hb.
  repeat case_decide; simplify_eq; done.
Defined.

(** X7. Training then loading: the reverse registry built from the mapping
    that the walk computes sends the label [i] to the [i]-th partition
    name first met, and holds no other label (none that is negative or
    beyond the number of partitions). *)
Theorem registry_follows_discovery (entries : list (string * dir_entry)) (k : Z) :
  Login.reverse_mapping (name_to_id (enumerate entries)) !! k =
    if decide (0 <= k)
    then discovery_order (partitions entries) !! Z.to_nat k
    else None.
Proof.
  destruct (enumerate_labelled entries) as [_ Hm]. simpl in Hm.
  destruct (reverse_mapping_entries (name_to_id (enumerate entries)))
    as [Hback Hforth].
  assert (forall name, Login.reverse_mapping (name_to_id (enumerate entries)) !! k
                       = Some name ->
            0 <= k /\ discovery_order (partitions entries) !! Z.to_nat k = Some name)
    as Hfound.
  { intros name Hname. apply Hback, Hm in Hname as (i & -> & Hi).
    split; [lia|]. by rewrite Nat2Z.id. }
  destruct (Login.reverse_mapping (name_to_id (enumerate entries)) !! k)
    as [name|] eqn:Hk.
  - destruct (Hfound name eq_refl) as [Hpos ->]. by rewrite decide_True.
  - destruct (decide (0 <= k)) as [Hpos|]; [|done].
    destruct (discovery_order (partitions entries) !! Z.to_nat k)
      as [name|] eqn:Hname; [|done].
    assert (name_to_id (enumerate entries) !! name = Some k) as Hlabel.
    { apply Hm. exists (Z.to_nat k). split; [lia|done]. }
    apply Hforth in Hlabel as [name' Hname']. congruence.
Qed.

End registry_more.

(** ** The trained collection *)
Section recog_more.
Import Recog Fixtures.

Implicit Types (w : walk) (files : list (string * option image))
  (entries : list (string * dir_entry)).

Lemma load_images_collect user_id files : forall w,
  faces (foldl (load_image user_id) w files) = faces w ++ valid_images files /\
  ids (foldl (load_image user_id) w files) =
    ids w ++ replicate (length (valid_images files)) user_id.
Proof.
  induction files as [|[img_name read] files IH]; intros w.
  - simpl. by rewrite !app_nil_r.
  - cbn [foldl]. destruct (IH (load_image user_id w (img_name, read))) as [-> ->].
    unfold valid_images, load_image. simpl.
    destruct (is_image_name img_name), read as [face_img|]; simpl; try done.
    by rewrite <- !app_assoc.
Qed.

Lemma visit_user_dir w dir_name files :
  visit w (dir_name, UserDir files) =
    match name_to_id w !! dir_name with
    | Some known => foldl (load_image known) w files
    | None =>
        foldl (load_image (current_id w))
          {| faces := faces w; ids := ids w;
             name_to_id := <[dir_name := current_id w]> (name_to_id w);
             current_id := current_id w + 1 |} files
    end.
Proof. unfold visit. by destruct (name_to_id w !! dir_name). Qed.

Lemma visit_stable w e name k :
  name_to_id w !! name = Some k -> name_to_id (visit w e) !! name = Some k.
Proof.
  intros Hk. destruct e as [dir_name [|files]]; [done|].
  rewrite visit_user_dir.
  destruct (name_to_id w !! dir_name) as [known|] eqn:Hd.
  - by destruct (load_images_labels known files w) as [-> _].
  - match goal with |- context [foldl _ ?w1 files] =>
      destruct (load_images_labels (current_id w) files w1) as [-> _]
    end.
    simpl. rewrite lookup_insert_ne; [done|]. congruence.
Qed.

Lemma walk_stable entries : forall w name k,
  name_to_id w !! name = Some k ->
  name_to_id (foldl visit w entries) !! name = Some k.
Proof.
  induction entries as [|e entries IH]; intros w name k Hk; [done|].
  simpl. by apply IH, visit_stable.
Qed.

(** One partition adds its valid images, all under the label its name has
    from then on. *)
Lemma visit_collect w dir_name files :
  exists user_id,
    name_to_id (visit w (dir_name, UserDir files)) !! dir_name = Some user_id /\
    faces (visit w (dir_name, UserDir files)) = faces w ++ valid_images files /\
    ids (visit w (dir_name, UserDir files)) =
      ids w ++ replicate (length (valid_images files)) user_id.
Proof.
  rewrite visit_user_dir. destruct (name_to_id w !! dir_name) as [known|] eqn:Hd.
  - exists known. destruct (load_images_collect known files w) as [-> ->].
    by destruct (load_images_labels known files w) as [-> _].
  - exists (current_id w).
    match goal with |- context [foldl _ ?w1 files] =>
      destruct (load_images_collect (current_id w) files w1) as [-> ->];
      destruct (load_images_labels (current_id w) files w1) as [-> _]
    end.
    split; [apply lookup_insert_eq | done].
Qed.

Lemma walk_collect entries : forall w,
  faces (foldl visit w entries) =
    faces w ++ (user_dirs entries ≫= fun d => valid_images d.2) /\
  Some <$> ids (foldl visit w entries) =
    (Some <$> ids w) ++
    (user_dirs entries ≫= fun d =>
       replicate (length (valid_images d.2))
         (name_to_id (foldl visit w entries) !! d.1)).
Proof.
  induction entries as [|[dir_name [|files]] entries IH]; intros w.
  - simpl. by rewrite !app_nil_r.
  - apply IH.
  - cbn [foldl]. destruct (IH (visit w (dir_name, UserDir files))) as [-> ->].
    destruct (visit_collect w dir_name files) as (user_id & Hid & -> & ->).
    change (user_dirs ((dir_name, UserDir files) :: entries))
      with ((dir_name, files) :: user_dirs entries).
    rewrite !bind_cons. cbn [fst snd].
    rewrite (walk_stable entries _ _ _ Hid).
    by rewrite fmap_app, fmap_replicate, <- !app_assoc.
Qed.

Lemma enumerate_collect entries :
  faces (enumerate entries) = user_dirs entries ≫= (fun d => valid_images d.2) /\
  Some <$> ids (enumerate entries) =
    user_dirs entries ≫= (fun d =>
      replicate (length (valid_images d.2))
        (name_to_id (enumerate entries) !! d.1)).
Proof. apply (walk_collect entries walk_start). Qed.

(** X8. The collection handed to [recognizer.train] is exactly this: the
    samples are the valid images (image extension, readable) of the
    partitions, partition after partition in enumeration order and file
    after file in listing order; and the label list repeats, for each
    partition, the label of its name in the final mapping once per valid
    image.  Entries that are not directories, files without an image
    extension and unreadable files contribute nothing. *)
Theorem trained_collection entries :
  let w := enumerate entries in
  faces w = user_dirs entries ≫= (fun d => valid_images d.2) /\
  Some <$> ids w =
    user_dirs entries ≫= (fun d =>
      replicate (length (valid_images d.2)) (name_to_id w !! d.1)).
Proof. apply enumerate_collect. Qed.

(** X9. The two lists handed to [recognizer.train] are aligned and in
    range: there are as many labels as samples, and every label is at
    least 0 and below the number of distinct partitions. *)
Theorem collection_aligned_in_range entries :
  let w := enumerate entries in
  length (faces w) = length (ids w) /\
  Forall (fun label => 0 <= label < current_id w) (ids w) /\
  current_id w = Z.of_nat (length (discovery_order (partitions entries))).
Proof.
  intros w. destruct (enumerate_collect entries) as [Hfaces Hids].
  fold w in Hfaces, Hids.
  destruct (enumerate_labelled entries) as [Hc Hm]. simpl in Hc, Hm.
  fold w in Hc, Hm. split; [|split; [|done]].
  - apply (f_equal length) in Hids. rewrite length_fmap in Hids.
    rewrite Hfaces, Hids. clear Hfaces Hids Hc Hm.
    induction (user_dirs entries) as [|d ds IH]; [done|].
    rewrite !bind_cons, !length_app, length_replicate. by rewrite IH.
  - apply Forall_forall. intros label Hin.
    destruct (enumerate_registered entries label Hin) as [name Hname].
    apply Hm in Hname as (i & -> & Hi). apply lookup_lt_Some in Hi. lia.
Qed.

End recog_more.

(** ** The file filter and retraining *)
Section filter_more.
Import Recog Fixtures.

Lemma substring_whole (s : string) : String.substring 0 (String.length s) s = s.
Proof. induction s as [|c s IH]; simpl; [done|]. by rewrite IH. Qed.

Lemma substring_after (p s : string) :
  String.substring (String.length p) (String.length s) (p +:+ s) = s.
Proof.
  induction p as [|c p IH]; simpl; [apply substring_whole | exact IH].
Qed.

Lemma substring_split (s : string) : forall i : nat,
  (i <= String.length s)%nat ->
  exists p, s = p +:+ String.substring i (String.length s - i) s.
Proof.
  induction s as [|c s IH]; intros i Hi.
  - exists "". simpl in Hi. by replace i with 0%nat by lia.
  - destruct i as [|i].
    + exists "". by rewrite Nat.sub_0_r, substring_whole.
    + destruct (IH i) as [p Hp]; [simpl in Hi; lia|].
      exists (String c p). simpl.
      change (String c s = String c (p +:+ String.substring i (String.length s - i) s)).
      by rewrite <- Hp.
Qed.

Lemma endswith_suffix (s suffix : string) :
  endswith s suffix = true <-> exists p, s = p +:+ suffix.
Proof.
  unfold endswith. split.
  - intros [Hlen Heq]%andb_prop.
    apply Nat.leb_le in Hlen. apply String.eqb_eq in Heq.
    destruct (substring_split s (String.length s - String.length suffix)) as [p Hp];
      [lia|].
    exists p. rewrite <- Heq. rewrite Hp at 1. do 2 f_equal. lia.
  - intros [p ->]. rewrite string_length_app. apply andb_true_intro. split.
    + apply Nat.leb_le. lia.
    + apply String.eqb_eq.
      replace (String.length p + String.length suffix - String.length suffix)%nat
        with (String.length p) by lia.
      apply substring_after.
Qed.

(** X10. The file filter of the walk: a file name passes exactly when it
    is some text followed by ".jpg", ".png" or ".jpeg" (in this exact
    case); a file that does not pass, or that [cv2.imread] cannot read,
    leaves the collection as it was. *)
Theorem image_filter (img_name : string) :
  (is_image_name img_name = true <->
   exists p, img_name = p +:+ ".jpg" \/ img_name = p +:+ ".png" \/
             img_name = p +:+ ".jpeg") /\
  (forall user_id w read,
     is_image_name img_name = false \/ read = None ->
     load_image user_id w (img_name, read) = w).
Proof.
  split.
  - unfold is_image_name. rewrite !orb_true_iff, !endswith_suffix.
    split.
    + intros [[[p ->]|[p ->]]|[p ->]]; exists p; auto.
    + intros [p [->| [->| ->]]]; eauto.
  - intros user_id w read [Hname| ->]; unfold load_image.
    + by rewrite Hname.
    + by destruct (is_image_name img_name).
Qed.

(** X11. Every file name that the enrollment writes passes the file
    filter of the training walk, whatever the count. *)
Theorem enrolled_names_are_eligible (count : nat) :
  is_image_name (Dataset.image_name count) = true.
Proof.
  unfold is_image_name, Dataset.image_name.
  apply orb_true_intro. left. apply orb_true_intro. left.
  apply endswith_suffix. by exists ("image_" +:+ pretty count).
Qed.

(** X12. Retraining replaces, it does not merge.  A run that ends on
    "Training complete." leaves artifacts that do not depend on the ones
    it found, and its mapping has no entry for a name that is not a
    partition of the dataset (an identity whose partition was removed is
    gone).  Running [train_model] again under the same conditions ends the
    same way and changes nothing more. *)
Theorem retraining_overwrites {model : Type} (env : environment model)
    (d : dataset) (fs : artifacts model) :
  let r := train_model env d fs in
  (ended r = Trained ->
   (forall fs', after (train_model env d fs') = after r) /\
   (forall entries name, d = Listing entries -> name ∉ partitions entries ->
      exists mapping, mapping_file (after r) = Holds mapping /\ mapping !! name = None)) /\
  ended (train_model env d (after r)) = ended r /\
  after (train_model env d (after r)) = after r.
Proof.
  intros r. subst r. split.
  - destruct d as [| |entries]; [done..|]. intros Hrun.
    destruct (train_model_trained env entries fs Hrun) as (trained & Htrain & _ & Hafter).
    split.
    + intros fs'. rewrite Hafter. unfold train_model.
      destruct (faces (enumerate entries)) as [|face rest] eqn:Hfaces;
        [by unfold train_model in Hrun; rewrite Hfaces in Hrun|].
      rewrite Htrain. unfold train_model in Hrun. rewrite Hfaces, Htrain in Hrun.
      destruct (model_write env); [|done..].
      by destruct (mapping_write env).
    + intros entries' name [= <-] Hname. rewrite Hafter. simpl.
      eexists. split; [done|].
      destruct (name_to_id (enumerate entries) !! name) as [k|] eqn:Hk; [|done].
      destruct Hname. destruct (enumerate_labelled entries) as [_ Hm].
      apply Hm in Hk as (i & _ & Hi). apply list_elem_of_lookup_2 in Hi.
      exact (proj1 (discovery_order_elem _ _) Hi).
  - unfold train_model. destruct d as [| |entries]; [done..|].
    destruct (faces (enumerate entries)) as [|face rest]; [done|].
    destruct (lbph_train env (face :: rest) (ids (enumerate entries)));
      [|done].
    destruct (model_write env); [|done..].
    by destruct (mapping_write env).
Qed.

Lemma retraining_overwrites_witness :
  mapping_file (after (train_model env_counting (Listing two_users) stale_artifacts))
    = Holds (<["bob" := 1]> (<["alice" := 0]> ∅)) /\
  exists mapping,
    mapping_file (after (train_model env_counting (Listing two_users) stale_artifacts))
      = Holds mapping /\ mapping !! "carol" = None.
Proof.
  split; [reflexivity|].
  apply (proj2 (proj1 (retraining_overwrites env_counting (Listing two_users)
                         stale_artifacts) eq_refl) two_users "carol" eq_refl).
  unfold partitions. simpl. rewrite !elem_of_cons. intros [H|[H|H]]; try discriminate.
  by apply elem_of_nil in H.
Defined.

End filter_more.

(** ** Enrollment runs in general *)
Section dataset_more.
Import Dataset Fixtures.

Implicit Types (store : sample_store) (feed : list read_result)
  (env : environment).

(** X13. The reported count is what is stored, where [cv2.imwrite] can
    write.  Let the name be non-empty, [os.makedirs] return and leave the
    identity's directory empty, the cascade be loaded, a window be there
    to show the frames in, the camera open, and the system refuse no
    sample file.  Then, whatever the camera delivers and whenever the run
    stops, the identity's directory afterwards holds exactly the files
    image_1.jpg .. image_<count>.jpg for the count the run reports, so its
    sample count is that count. *)
Theorem stored_samples_match_count env store detect feed :
  user_name env <> "" ->
  (makedirs (join DATASET_PATH (user_name env)) store).2 = true ->
  partition (user_name env)
    (makedirs (join DATASET_PATH (user_name env)) store).1 = ∅ ->
  cascade env = Some detect ->
  display env = true ->
  cameras env (cam_index env) = Some feed ->
  (forall k,
     denied store (user_dir (user_name env) store ++ [image_name k]) = false) ->
  exists why count,
    ended (create_dataset env store) = Captured why count /\
    sample_count (user_name env) (store_after (create_dataset env store)) = count /\
    (forall file,
       is_Some (partition (user_name env)
                  (store_after (create_dataset env store)) !! file) <->
       exists k, (1 <= k <= count)%nat /\ file = image_name k).
Proof.
  intros Hname Hmade Hempty Hcascade Hshow Hcam Hmay.
  apply cascade_Some in Hcascade.
  rewrite (create_dataset_loop env store feed Hname Hmade) by congruence.
  cbv zeta. rewrite Hcascade, Hshow.
  set (udp := join DATASET_PATH (user_name env)) in *.
  set (dir := user_dir (user_name env) store) in *.
  set (store1 := (makedirs udp store).1) in *.
  set (acc0 := (0%nat, store1, [Makedirs udp; OpenCamera (cam_index env)])).
  destruct (capture_stops detect (jpeg env) dir feed acc0) as [why Hwhy].
  pose proof (capture_extends (detector (Loaded detect)) (jpeg env) true dir
                feed acc0) as Hext.
  destruct (capture _ _ _ _ _ _) as [how [[count store'] trace']].
  simpl in Hwhy, Hext. subst how. cbn [fst snd ended store_after].
  destruct Hext as (_ & _ & [Hcwd Hden] & _ & Htree & Hnew & _).
  simpl in Hcwd, Hden, Htree, Hnew.
  destruct (cwd_makedirs udp store) as [Hcwd1 Hden1].
  fold store1 in Hcwd1, Hden1.
  assert (cwd store' = cwd store) as Hcwd' by congruence.
  assert (forall x : string, tree store1 !! (dir ++ [x]) = None) as Hfree.
  { intros x.
    pose proof (partition_lookup (user_name env) store store1 x Hcwd1) as Hx.
    by rewrite Hempty, lookup_empty in Hx. }
  assert (forall x, is_Some (tree store' !! (dir ++ [x])) <->
            exists k, (1 <= k <= count)%nat /\ x = image_name k) as Hlist.
  { intros x. split.
    - intros [n Hn].
      destruct (Htree (dir ++ [x])) as [Heq|(k & bytes & Hk & Heq & _)].
      + by rewrite Heq, Hfree in Hn.
      + apply app_inv_head in Heq. injection Heq as ->.
        exists k. split; [lia|done].
    - intros (k & Hk & ->).
      destruct (Hnew k) as [bytes ->]; [lia| | | |by eauto].
      + apply (makedirs_reaches udp store Hmade).
      + by rewrite is_dir_entry, Hfree.
      + rewrite Hden1. apply Hmay. }
  exists why, count. split; [done|]. split.
  - unfold sample_count, partition.
    rewrite (user_dir_cwd _ store store' Hcwd'). by apply samples_listing.
  - intros file. rewrite (partition_lookup _ store store' _ Hcwd'). apply Hlist.
Qed.

Lemma stored_samples_match_count_witness :
  exists why count,
    ended (create_dataset (enroll_env "alice" feed_quit) ∅) = Captured why count /\
    sample_count "alice" (store_after (create_dataset (enroll_env "alice" feed_quit) ∅))
      = count /\
    (forall file,
       is_Some (partition "alice"
                  (store_after (create_dataset (enroll_env "alice" feed_quit) ∅))
                !! file) <->
       exists k, (1 <= k <= count)%nat /\ file = image_name k).
Proof.
  apply (stored_samples_match_count (enroll_env "alice" feed_quit) ∅
           per_pixel feed_quit);
    [discriminate|reflexivity|reflexivity|reflexivity|reflexivity|reflexivity|].
  intros k. reflexivity.
Defined.

(** X14. An enrollment deletes nothing and overwrites nothing but its own
    samples.  However the run ends and whatever the name is, the working
    directory is what it was, and for every path: a directory stays a
    directory; a file keeps its content unless it is one of the files
    image_<k>.jpg of the directory the name leads to; and where nothing
    was there is afterwards nothing, a directory, or such a file. *)
Theorem enrollment_touches_only_own_samples env store :
  let r := create_dataset env store in
  let dir := user_dir (user_name env) store in
  cwd (store_after r) = cwd store /\
  forall p : path,
    match tree store !! p with
    | Some Folder => tree (store_after r) !! p = Some Folder
    | Some (File bytes) =>
        tree (store_after r) !! p = Some (File bytes) \/
        exists k bytes', p = dir ++ [image_name k] /\
                         tree (store_after r) !! p = Some (File bytes')
    | None =>
        tree (store_after r) !! p = None \/
        tree (store_after r) !! p = Some Folder \/
        exists k bytes', p = dir ++ [image_name k] /\
                         tree (store_after r) !! p = Some (File bytes')
    end.
Proof.
  intros r dir.
  set (store1 := (makedirs (join DATASET_PATH (user_name env)) store).1).
  assert (cwd store1 = cwd store /\
          forall p : path,
            match tree store !! p with
            | Some n => tree store1 !! p = Some n
            | None => tree store1 !! p = None \/ tree store1 !! p = Some Folder
            end) as [Hcwd1 Hmade].
  { split; [apply cwd_makedirs|]. intros p.
    destruct (makedirs_tree (join DATASET_PATH (user_name env)) store p)
      as [_ [Heq|[Hnone Hnew]]].
    - fold store1 in Heq. rewrite Heq. destruct (tree store !! p); auto.
    - fold store1 in Hnew. rewrite Hnone. auto. }
  assert (forall store', store' = store \/ store' = store1 ->
            cwd store' = cwd store /\
            forall p : path,
              match tree store !! p with
              | Some Folder => tree store' !! p = Some Folder
              | Some (File bytes) =>
                  tree store' !! p = Some (File bytes) \/
                  exists k bytes', p = dir ++ [image_name k] /\
                                   tree store' !! p = Some (File bytes')
              | None =>
                  tree store' !! p = None \/
                  tree store' !! p = Some Folder \/
                  exists k bytes', p = dir ++ [image_name k] /\
                                   tree store' !! p = Some (File bytes')
              end) as Hsimple.
  { intros store' [->| ->].
    - split; [done|]. intros p. destruct (tree store !! p) as [[|bytes]|]; auto.
    - split; [done|]. intros p. specialize (Hmade p).
      destruct (tree store !! p) as [[|bytes]|]; [done|by left|].
      destruct Hmade; auto. }
  destruct (create_dataset_cases env store)
    as [(_ & _ & Hs)|[(_ & _ & Hs)|[(_ & _ & Hs)|[(_ & _ & Hs)|Hloop]]]];
    try (fold r store1 in Hs; rewrite Hs; apply Hsimple; auto).
  destruct Hloop as (how & count & _ & _ & Hext & _).
  fold r store1 dir in Hext. clearbody r.
  destruct Hext as (_ & _ & [Hcwd _] & Hdirs & Htree & _ & _).
  simpl in Hcwd, Hdirs, Htree.
  split; [congruence|]. intros p. specialize (Hmade p).
  destruct (Htree p) as [Heq|(k & bytes' & _ & Hp & Hfile)].
  - rewrite Heq. destruct (tree store !! p) as [[|bytes]|]; [done|by left|].
    destruct Hmade; auto.
  - destruct (tree store !! p) as [[|bytes]|] eqn:Hwas.
    + specialize (Hdirs p). subst p.
      rewrite !is_dir_entry, Hfile, Hmade in Hdirs. done.
    + right. by exists k, bytes'.
    + right. right. by exists k, bytes'.
Qed.

(** X15. The effects of a run, in order, by the way it ends: nothing at
    all for an empty name; only the call of [os.makedirs] when it raises,
    and when building the classifier raises; that call and the attempt to
    open the camera when it does not open; otherwise that call, the
    camera, and the calls of [cv2.imwrite] for
    image_1.jpg .. image_<count>.jpg in this order in the directory the
    name leads to, followed by the release of the camera when the loop
    was left by one of its exits.  When the loop is left by an exception,
    which happens with a classifier that holds no cascade (then at the
    first frame, before any sample) and without a window to show the
    frames in, the camera is not released. *)
Theorem effects_by_outcome env store :
  let udp := join DATASET_PATH (user_name env) in
  let dir := user_dir (user_name env) store in
  let r := create_dataset env store in
  match ended r with
  | NameEmpty => trace r = []
  | MakedirsRaised | CascadeError => trace r = [Makedirs udp]
  | CameraError => trace r = [Makedirs udp; OpenCamera (cam_index env)]
  | Captured _ count =>
      trace r = [Makedirs udp; OpenCamera (cam_index env)]
                ++ writes dir 0 count ++ [ReleaseCamera]
  | LoopRaised count =>
      trace r = [Makedirs udp; OpenCamera (cam_index env)]
                ++ writes dir 0 count /\
      ((cascade_file env = NotLoaded /\ count = 0%nat) \/ display env = false)
  end.
Proof.
  intros udp dir r.
  destruct (create_dataset_cases env store)
    as [(He & Ht & _)|[(He & Ht & _)|[(He & Ht & _)|[(He & Ht & _)|Hloop]]]];
    try (fold r udp in He, Ht; by rewrite He).
  destruct Hloop as (how & count & He & Ht & _ & Hraised).
  fold r udp dir in He, Ht. rewrite He.
  destruct how as [why|].
  - by rewrite Ht, <- app_assoc.
  - split; [by rewrite Ht, app_nil_r | by apply Hraised].
Qed.

(** X16. How far the count can go.  Let the name be non-empty,
    [os.makedirs] return, the cascade be loaded, a window be there to show
    the frames in, and the camera open.  If no read of the feed shows more
    than [m] faces with a non-empty crop (for some [m >= 1]), the run ends
    with a count below [IMAGES_TO_CAPTURE + m]; in particular, with at most
    one such face per frame the count never exceeds [IMAGES_TO_CAPTURE].
    A run that ends because the loop condition failed has reached
    [IMAGES_TO_CAPTURE]; one that ends on a failed read has not. *)
Theorem count_bounds env store detect feed (m : nat) :
  user_name env <> "" ->
  (makedirs (join DATASET_PATH (user_name env)) store).2 = true ->
  cascade env = Some detect ->
  display env = true ->
  cameras env (cam_index env) = Some feed ->
  (1 <= m)%nat ->
  Forall (fun f => (clear_in detect f <= m)%nat) feed ->
  exists why count,
    ended (create_dataset env store) = Captured why count /\
    (count < IMAGES_TO_CAPTURE + m)%nat /\
    (why = Reached -> (IMAGES_TO_CAPTURE <= count)%nat) /\
    (why = FrameLost -> (count < IMAGES_TO_CAPTURE)%nat).
Proof.
  intros Hname Hmade Hcascade Hshow Hcam Hm Hfeed.
  apply cascade_Some in Hcascade.
  rewrite (create_dataset_loop env store feed Hname Hmade) by congruence.
  cbv zeta. rewrite Hcascade, Hshow.
  set (acc0 := (0%nat, _, _)).
  destruct (capture_stops detect (jpeg env) (user_dir (user_name env) store)
              feed acc0) as [why Hwhy].
  pose proof (capture_bounds detect (jpeg env) true
                (user_dir (user_name env) store) m feed acc0 Hm Hfeed) as Hb.
  cbv zeta in Hb.
  destruct (capture _ _ _ _ _ _) as [how [[count store'] trace']].
  simpl in Hwhy, Hb. subst how. exists why, count. split; [done|].
  destruct Hb as (Hlt & Hreached & Hlost);
    [unfold IMAGES_TO_CAPTURE; simpl; lia|].
  split; [done|]. split; intros ->; auto.
Qed.

Lemma count_bounds_witness :
  exists why count,
    ended (create_dataset (enroll_env "alice" feed_overshoot) ∅) = Captured why count /\
    (count < IMAGES_TO_CAPTURE + 2)%nat /\
    (why = Reached -> (IMAGES_TO_CAPTURE <= count)%nat) /\
    (why = FrameLost -> (count < IMAGES_TO_CAPTURE)%nat).
Proof.
  apply (count_bounds (enroll_env "alice" feed_overshoot) ∅ per_pixel
           feed_overshoot 2);
    [discriminate|reflexivity|reflexivity|reflexivity|reflexivity|lia|].
  apply Forall_forall. intros f Hf.
  apply elem_of_app in Hf as [Hf|Hf].
  - apply elem_of_replicate in Hf as [-> _]. vm_compute. lia.
  - apply list_elem_of_singleton in Hf as ->. vm_compute. lia.
Defined.

(** X17. Each stored sample is the .jpg encoding of the crop of its
    frame, not the crop itself.  Let the name be non-empty, [os.makedirs]
    return, the cascade be loaded, a window be there to show the frames
    in, and the camera open.  When the first [IMAGES_TO_CAPTURE] reads each
    show exactly one face with a non-empty crop and 'q' is not pressed
    during the first [IMAGES_TO_CAPTURE - 1] of them, then for read number
    [i] (counted from 0), if no directory lies at image_<i+1>.jpg and the
    system does not refuse that file, it holds after the run what
    [cv2.imwrite] encodes the crop of the region detected in that read to,
    whatever it held before. *)
Theorem samples_are_the_crops env store detect feed
    (i : nat) gray (key : Z) (r : region) :
  user_name env <> "" ->
  (makedirs (join DATASET_PATH (user_name env)) store).2 = true ->
  cascade env = Some detect ->
  display env = true ->
  cameras env (cam_index env) = Some feed ->
  (IMAGES_TO_CAPTURE <= length feed)%nat ->
  forallb (one_face detect) (take IMAGES_TO_CAPTURE feed) = true ->
  forallb no_quit (take (IMAGES_TO_CAPTURE - 1) feed) = true ->
  (i < IMAGES_TO_CAPTURE)%nat ->
  feed !! i = Some (Frame gray key) ->
  detect gray = [r] ->
  is_dir (makedirs (join DATASET_PATH (user_name env)) store).1
    (user_dir (user_name env) store ++ [image_name (S i)]) = false ->
  denied store (user_dir (user_name env) store ++ [image_name (S i)]) = false ->
  partition (user_name env) (store_after (create_dataset env store))
    !! image_name (S i) = Some (File (jpeg env (crop gray r))).
Proof.
  intros Hname Hmade Hcascade Hshow Hcam Hlen Hface Hkey Hi Hframe Hdetect
    Hfree Hmay.
  apply cascade_Some in Hcascade.
  rewrite (create_dataset_loop env store feed Hname Hmade) by congruence.
  cbv zeta. rewrite Hcascade, Hshow.
  set (udp := join DATASET_PATH (user_name env)) in *.
  set (dir := user_dir (user_name env) store) in *.
  set (store1 := (makedirs udp store).1) in *.
  set (acc0 := (0%nat, store1, [Makedirs udp; OpenCamera (cam_index env)])).
  destruct (capture_stops detect (jpeg env) dir feed acc0) as [why Hwhy].
  destruct (cwd_makedirs udp store) as [Hcwd1 Hden1].
  fold store1 in Hcwd1, Hden1.
  pose proof (capture_contents detect (jpeg env) dir IMAGES_TO_CAPTURE feed
                acc0 eq_refl Hlen Hface Hkey
                (makedirs_reaches udp store Hmade) i gray key r Hi Hframe
                Hdetect Hfree) as Hfile.
  pose proof (capture_extends (detector (Loaded detect)) (jpeg env) true dir
                feed acc0) as Hext.
  destruct (capture _ _ _ _ _ _) as [how [[count store'] trace']].
  simpl in Hwhy, Hfile, Hext. subst how. cbn [store_after].
  destruct Hext as (_ & _ & [Hcwd _] & _). simpl in Hcwd.
  rewrite (partition_lookup _ store store') by congruence.
  apply Hfile. by rewrite Hden1.
Qed.

Lemma samples_are_the_crops_witness :
  partition "alice"
    (store_after (create_dataset (enroll_env "alice" feed_exact) store_stale))
    !! image_name 3 = Some (File (toy_jpeg [[5]])).
Proof.
  apply (samples_are_the_crops (enroll_env "alice" feed_exact) store_stale
           per_pixel feed_exact 2 [[5]] (-1) (0, 0, 1, 1));
    try reflexivity; try discriminate.
  unfold IMAGES_TO_CAPTURE. lia.
Defined.



End dataset_more.
